(** * Curve-fitting pipeline of [main.py]: objective function and orchestration

    The script fits a three-parameter planar curve to observed points.  Its own
    logic is the parametric curve, the objective wrapped around it, the restart
    loop of the global search and the acceptance test after local refinement.

    Number model.  A Python/NumPy [float64] is modelled as an exact real number
    extended with the three IEEE special values [+inf], [-inf] and [nan]:
    arithmetic on finite values is the arithmetic of [R] (rounding, overflow and
    the sign of zero are abstracted away), the special values follow the IEEE
    tables that NumPy exposes (comparisons with [nan] are false, [inf - inf] and
    [0 * inf] are [nan], and so on).  Decimal literals of the source stand for
    the decimal fractions they spell.  [exp], [sin], [cos], [sqrt] and [PI] are
    those of the real-number library, so the definitions are functions but do
    not reduce to numerals; concrete instances are settled by rewriting.

    Where the size of an intermediate result decides what the code does, the
    same code is read a second time over operations that overflow as float64
    does (the definitions with the suffix [64]): a result that reaches
    [2^1024 - 2^970] in magnitude is the infinity of its sign.  The statements
    about which values [objective] can return, and the statements that depend
    on a result staying finite, are made in that reading.

    Library calls.  NumPy arrays are lists.  The NumPy and SciPy functions that
    the objective calls ([argsort], fancy indexing, [sum], broadcasting,
    [interp1d] with [np.interp] underneath) are written out from their
    documented behaviour, exceptions included.  The two optimisers are not
    modelled: the stages around them are stated for arbitrary functions in
    their place.

    Exceptions are values: a function that may raise returns a [result]. *)

From Stdlib Require Import Reals Lra Lia List Bool Arith ZArith Permutation Sorted.
Import ListNotations.

Open Scope R_scope.

(** ** Boolean comparisons on reals *)

Definition Rleb (a b : R) : bool := if Rle_dec a b then true else false.
Definition Rltb (a b : R) : bool := if Rlt_dec a b then true else false.
Definition Reqb (a b : R) : bool := if Req_dec_T a b then true else false.

(** ** Floating-point values *)

Inductive float : Type :=
| Fin (r : R)
| PInf
| NInf
| NaN.

Declare Scope float_scope.
Delimit Scope float_scope with float.
Bind Scope float_scope with float.

Module Float.

Definition isfinite (a : float) : bool :=
  match a with Fin _ => true | _ => false end.

Definition isnan (a : float) : bool :=
  match a with NaN => true | _ => false end.

(** Infinity of the sign of [r] (of [+] when [r] is not negative). *)
Definition inf_of_sign (r : R) : float := if Rltb r 0 then NInf else PInf.

Definition neg (a : float) : float :=
  match a with
  | Fin r => Fin (- r)
  | PInf => NInf
  | NInf => PInf
  | NaN => NaN
  end.

Definition add (a b : float) : float :=
  match a, b with
  | NaN, _ | _, NaN => NaN
  | Fin x, Fin y => Fin (x + y)
  | PInf, NInf | NInf, PInf => NaN
  | PInf, _ | _, PInf => PInf
  | NInf, _ | _, NInf => NInf
  end.

Definition sub (a b : float) : float := add a (neg b).

(** [inf * r] for a finite [r]. *)
Definition mul_inf (pos : bool) (r : R) : float :=
  if Reqb r 0 then NaN
  else if Bool.eqb pos (Rltb 0 r) then PInf else NInf.

Definition mul (a b : float) : float :=
  match a, b with
  | NaN, _ | _, NaN => NaN
  | Fin x, Fin y => Fin (x * y)
  | PInf, Fin y => mul_inf true y
  | NInf, Fin y => mul_inf false y
  | Fin x, PInf => mul_inf true x
  | Fin x, NInf => mul_inf false x
  | PInf, PInf | NInf, NInf => PInf
  | PInf, NInf | NInf, PInf => NInf
  end.

(** NumPy division: a zero divisor gives an infinity or [nan], no exception. *)
Definition div (a b : float) : float :=
  match a, b with
  | NaN, _ | _, NaN => NaN
  | Fin x, Fin y =>
      if Reqb y 0 then (if Reqb x 0 then NaN else inf_of_sign x)
      else Fin (x / y)
  | Fin _, (PInf | NInf) => Fin 0
  | PInf, Fin y => inf_of_sign y
  | NInf, Fin y => neg (inf_of_sign y)
  | (PInf | NInf), (PInf | NInf) => NaN
  end.

Definition abs (a : float) : float :=
  match a with
  | Fin r => Fin (Rabs r)
  | PInf | NInf => PInf
  | NaN => NaN
  end.

(** [a ** 2]. *)
Definition sqr (a : float) : float := mul a a.

Definition exp (a : float) : float :=
  match a with
  | Fin r => Fin (Rtrigo_def.exp r)
  | PInf => PInf
  | NInf => Fin 0
  | NaN => NaN
  end.

Definition sin (a : float) : float :=
  match a with Fin r => Fin (Rtrigo_def.sin r) | _ => NaN end.

Definition cos (a : float) : float :=
  match a with Fin r => Fin (Rtrigo_def.cos r) | _ => NaN end.

(** [np.hypot]: an infinite argument wins over [nan] (C99 Annex F). *)
Definition hypot (a b : float) : float :=
  match a, b with
  | Fin x, Fin y => Fin (sqrt (x * x + y * y))
  | (PInf | NInf), _ | _, (PInf | NInf) => PInf
  | _, _ => NaN
  end.

Definition leb (a b : float) : bool :=
  match a, b with
  | NaN, _ | _, NaN => false
  | Fin x, Fin y => Rleb x y
  | NInf, _ | _, PInf => true
  | _, _ => false
  end.

Definition ltb (a b : float) : bool :=
  match a, b with
  | NaN, _ | _, NaN => false
  | Fin x, Fin y => Rltb x y
  | PInf, _ | _, NInf => false
  | _, _ => true
  end.

Definition eqb (a b : float) : bool :=
  match a, b with
  | Fin x, Fin y => Reqb x y
  | PInf, PInf | NInf, NInf => true
  | _, _ => false
  end.

(** [np.maximum] and [np.minimum] propagate [nan]. *)
Definition maximum (a b : float) : float :=
  match a, b with
  | NaN, _ | _, NaN => NaN
  | _, _ => if leb a b then b else a
  end.

Definition minimum (a b : float) : float :=
  match a, b with
  | NaN, _ | _, NaN => NaN
  | _, _ => if leb a b then a else b
  end.

(** [np.clip(a, lo, hi)] is [minimum(maximum(a, lo), hi)]. *)
Definition clip (a lo hi : float) : float := minimum (maximum a lo) hi.

(** [np.deg2rad(a)] is [a * (pi / 180)]. *)
Definition deg2rad (a : float) : float := mul a (Fin (PI / 180)).

End Float.

Infix "+" := Float.add : float_scope.
Infix "-" := Float.sub : float_scope.
Infix "*" := Float.mul : float_scope.
Infix "/" := Float.div : float_scope.
Infix "<=?" := Float.leb (at level 70) : float_scope.
Infix "<?" := Float.ltb (at level 70) : float_scope.

(** Literals of the source. *)
Definition f0 : float := Fin 0.
Definition f42 : float := Fin 42.
Definition f50 : float := Fin 50.
Definition f100 : float := Fin 100.
Definition f200 : float := Fin 200.
Definition f30 : float := Fin 30.
Definition f0_3 : float := Fin (3 / 10).
Definition f0_08 : float := Fin (8 / 100).
Definition f0_015 : float := Fin (15 / 1000).
Definition f0_02 : float := Fin (2 / 100).

(** ** [parametric_curve] (main.py, lines 16-22) *)

Section Curve.
Local Open Scope float_scope.

(** One sample: the body of [parametric_curve] at a scalar [t].  NumPy applies
    it to every element of the array [t]. *)
Definition curve_point (t theta_deg M X : float) : float * float :=
  let th := Float.deg2rad theta_deg in
  let exp_term := Float.exp (Float.clip (M * Float.abs t) (Float.neg f30) f30) in
  let sin_term := Float.sin (f0_3 * t) in
  let x := t * Float.cos th - exp_term * sin_term * Float.sin th + X in
  let y := f42 + t * Float.sin th + exp_term * sin_term * Float.cos th in
  (x, y).

Definition parametric_curve (t : list float) (theta_deg M X : float)
  : list float * list float :=
  (map (fun ti => fst (curve_point ti theta_deg M X)) t,
   map (fun ti => snd (curve_point ti theta_deg M X)) t).

End Curve.

(** ** Exceptions *)

Inductive exn : Type := ValueError | IndexError | AttributeError.

Inductive result (A : Type) : Type :=
| Ok (a : A)
| Raise (e : exn).

Arguments Ok {A} a.
Arguments Raise {A} e.

Definition bind {A B : Type} (m : result A) (k : A -> result B) : result B :=
  match m with
  | Ok a => k a
  | Raise e => Raise e
  end.

Notation "x <- m ;; k" := (bind m (fun x => k))
  (at level 61, m at next level, right associativity).

(** ** NumPy array operations used by the objective *)

Fixpoint map2 {A B C : Type} (f : A -> B -> C) (l1 : list A) (l2 : list B)
  : list C :=
  match l1, l2 with
  | a :: l1', b :: l2' => f a b :: map2 f l1' l2'
  | _, _ => []
  end.

(** Element-wise binary operation on one-dimensional arrays with NumPy's
    broadcasting: equal lengths, or one operand of length one; any other pair
    of shapes raises [ValueError]. *)
Definition broadcast2 (f : float -> float -> float) (a b : list float)
  : result (list float) :=
  if (length a =? length b)%nat then Ok (map2 f a b)
  else if (length a =? 1)%nat then Ok (map (f (hd NaN a)) b)
  else if (length b =? 1)%nat then Ok (map (fun v => f v (hd NaN b)) a)
  else Raise ValueError.

Definition np_sub : list float -> list float -> result (list float) :=
  broadcast2 Float.sub.

Definition np_all_isfinite (a : list float) : bool := forallb Float.isfinite a.

(** [np.sum]: the elements added up from zero.  (NumPy adds pairwise; with
    exact finite arithmetic the grouping does not change the total.) *)
Definition np_sum (a : list float) : float := fold_left Float.add a f0.

Definition np_zeros_like (a : list float) : list float := map (fun _ => f0) a.

(** [a[i]] and [a[-1]] on a one-dimensional array. *)
Definition getitem (a : list float) (i : nat) : result float :=
  match nth_error a i with
  | Some v => Ok v
  | None => Raise IndexError
  end.

Definition getitem_last (a : list float) : result float :=
  match a with
  | [] => Raise IndexError
  | _ :: _ => getitem a (length a - 1)
  end.

(** [np.argsort]: the indices of [a] in non-decreasing order of their keys,
    [nan] keys last, here by insertion; indices of equal keys stay in
    increasing order (NumPy's default sort leaves their order unspecified,
    SciPy's is the stable one). *)
Fixpoint insert_by (key : nat -> float) (i : nat) (l : list nat) : list nat :=
  match l with
  | [] => [i]
  | j :: l' =>
      if Float.leb (key i) (key j) || Float.isnan (key j)
      then i :: l else j :: insert_by key i l'
  end.

Definition argsort (a : list float) : list nat :=
  fold_right (insert_by (fun i => nth i a NaN)) [] (seq 0 (length a)).

(** [a[idx]] with an index array.  The index arrays of this program come from
    [argsort] and are in range; an index out of range reads [nan] here. *)
Definition take (a : list float) (idx : list nat) : list float :=
  map (fun i => nth i a NaN) idx.

(** ** [scipy.interpolate.interp1d], linear kind, one-dimensional [y] *)

Record interp1d_t : Type := mk_interp1d {
  ip_x : list float;
  ip_y : list float;
  ip_below : float;
  ip_above : float
}.

(** Construction with [bounds_error=False] and [fill_value=(below, above)]:
    [x] is sorted with a stable sort and [y] reordered with it; fewer than one
    entry, or arrays of different lengths, raise [ValueError]. *)
Definition interp1d (x y : list float) (fill_value : float * float)
  : result interp1d_t :=
  if negb (length x =? length y)%nat then Raise ValueError
  else
    let ind := argsort x in
    let xs := take x ind in
    let ys := take y ind in
    if (length xs <? 1)%nat then Raise ValueError
    else Ok (mk_interp1d xs ys (fst fill_value) (snd fill_value)).

Section Interp.
Local Open Scope float_scope.

(** The value on the segment from [(x0, y0)] to [(x1, y1)], as [np.interp]
    computes it, with its retries when the first formula gives [nan]. *)
Definition segment (x0 y0 x1 y1 q : float) : float :=
  if Float.eqb x0 q then y0
  else
    let slope := (y1 - y0) / (x1 - x0) in
    let r := slope * (q - x0) + y0 in
    if Float.isnan r then
      let r' := slope * (q - x1) + y1 in
      if Float.isnan r' && Float.eqb y0 y1 then y0 else r'
    else r.

(** The search of [np.interp] for the segment [xp[j] <= q < xp[j+1]] of a
    sorted table, for [xp[0] <= q <= xp[-1]]; the last entry answers for
    itself. *)
Fixpoint interp_scan (xp fp : list float) (q : float) : float :=
  match xp, fp with
  | x0 :: ((x1 :: _) as xp'), y0 :: ((y1 :: _) as fp') =>
      if q <? x1 then segment x0 y0 x1 y1 q else interp_scan xp' fp' q
  | [_], y0 :: _ => y0
  | _, _ => NaN
  end.

(** [np.interp(q, xp, fp)] at one query, with the default [left=fp[0]] and
    [right=fp[-1]].  A table of one entry is answered by comparisons alone; the
    test for a [nan] query belongs to the longer tables. *)
Definition np_interp (xp fp : list float) (q : float) : float :=
  match xp, fp with
  | x0 :: _, y0 :: _ =>
      let xl := last xp x0 in
      let yl := last fp y0 in
      if (length xp =? 1)%nat then
        if q <? x0 then y0 else if x0 <? q then yl else y0
      else if Float.isnan q then q
      else if xl <? q then yl
      else if q <? x0 then y0
      else interp_scan xp fp q
  | _, _ => NaN
  end.

(** Evaluation [interp(x_new)]: the linear interpolant, then the fill values
    written over the entries below [x[0]] and over those above [x[-1]]. *)
Definition interp_at (f : interp1d_t) (q : float) : float :=
  let y := np_interp (ip_x f) (ip_y f) q in
  let y := if q <? hd NaN (ip_x f) then ip_below f else y in
  if last (ip_x f) NaN <? q then ip_above f else y.

Definition interp_call (f : interp1d_t) (x_new : list float) : list float :=
  map (interp_at f) x_new.

End Interp.

(** ** [objective] (main.py, lines 24-43) *)

Definition USE_EUCLIDEAN : bool := false.

Section Objective.
Local Open Scope float_scope.

(** The guard of line 26. *)
Definition in_box (theta M X : float) : bool :=
  (f0 <=? theta) && (theta <=? f50)
  && (Float.neg f0_08 <=? M) && (M <=? f0_08)
  && (f0 <=? X) && (X <=? f100).

(** Lines 33-39: the [try] block; any exception raised in it is caught by the
    caller below. *)
Definition try_interp (x_sorted y_sorted x_data : list float)
  : result (list float) :=
  y_first <- getitem y_sorted 0 ;;
  y_last <- getitem_last y_sorted ;;
  interp <- interp1d x_sorted y_sorted (y_first, y_last) ;;
  Ok (interp_call interp x_data).

(** Line 41, for either value of the flag. *)
Definition residual_error (use_euclidean : bool) (dy : list float) : float :=
  if negb use_euclidean then np_sum (map Float.abs dy)
  else np_sum (map2 Float.hypot (np_zeros_like dy) dy).

(** Line 42. *)
Definition reg_of (M : float) : float := Float.sqr ((M - f0_015) / f0_02).

(** The function itself.  The two module globals it reads, the curve function
    and the flag, are arguments here; [objective] below fixes them to the
    module's [parametric_curve] and [USE_EUCLIDEAN]. *)
Definition objective_with
    (curve : list float -> float -> float -> float -> list float * list float)
    (use_euclidean : bool)
    (params t_vals x_data y_data : list float) : result float :=
  match params with
  | [theta; M; X] =>
      if negb (in_box theta M X) then Ok PInf
      else
        let '(x_pred, y_pred) := curve t_vals theta M X in
        if negb (np_all_isfinite x_pred) || negb (np_all_isfinite y_pred)
        then Ok PInf
        else
          let idx := argsort x_pred in
          let x_sorted := take x_pred idx in
          let y_sorted := take y_pred idx in
          match try_interp x_sorted y_sorted x_data with
          | Raise _ => Ok PInf
          | Ok y_interp =>
              dy <- np_sub y_interp y_data ;;
              let err := residual_error use_euclidean dy in
              let reg := reg_of M in
              Ok (err + f200 * reg)
          end
  | _ => Raise ValueError
  end.

Definition objective_flag (use_euclidean : bool)
  : list float -> list float -> list float -> list float -> result float :=
  objective_with parametric_curve use_euclidean.

Definition objective : list float -> list float -> list float -> list float
                       -> result float :=
  objective_flag USE_EUCLIDEAN.

End Objective.

(** ** The optimisation stages (main.py, lines 55-97) *)

Record OptimizeResult : Type := mk_result {
  res_x : list float;
  res_fun : float
}.

Definition RANDOM_SEED : Z := 42.
Definition POP_SIZE : Z := 25.
Definition MAX_ITER : Z := 800.
Definition N_STARTS : nat := 3.

Definition bounds : list (float * float) :=
  [(f0, f50); (Float.neg f0_08, f0_08); (f0, f100)].

(** Options of the Nelder-Mead call. *)
Record nm_options : Type := mk_options {
  nm_maxiter : Z;
  xatol : float;
  fatol : float
}.

Definition nelder_mead_options : nm_options :=
  mk_options 2000 (Fin (1 / 1000000000)) (Fin (1 / 1000000000)).

Section Pipeline.
Local Open Scope float_scope.

(** The two SciPy optimisers are taken as given: any function of the
    objective, the box or start point and the settings, which returns a
    result or raises.  Of the keyword arguments of the calls, those that vary
    or carry numbers are arguments here; [updating], [workers] and [polish] are
    constants, and the callback only records progress and returns nothing, so
    it never stops the search. *)
Variable differential_evolution :
  (list float -> result float) -> list (float * float) ->
  Z -> Z -> Z -> result OptimizeResult.
Variable minimize :
  (list float -> result float) -> list float -> nm_options ->
  result OptimizeResult.

Variables t_vals x_data y_data : list float.

Definition func (p : list float) : result float :=
  objective p t_vals x_data y_data.

(** The seed of restart [run] (line 76). *)
Definition restart_seed (run : Z) : Z := (RANDOM_SEED + run * 3)%Z.

(** Lines 73-83. *)
Definition de_restart (run : Z) : result OptimizeResult :=
  differential_evolution func bounds (restart_seed run) POP_SIZE MAX_ITER.

(** Lines 90-91. *)
Definition keep_best (best : option OptimizeResult) (res : OptimizeResult)
  : option OptimizeResult :=
  match best with
  | None => Some res
  | Some b => if res_fun res <? res_fun b then Some res else Some b
  end.

(** [range(1, N_STARTS + 1)]. *)
Definition restart_indices : list Z := map Z.of_nat (seq 1 N_STARTS).

(** The loop of lines 62-91 over a list of restart indices, from an incumbent. *)
Fixpoint restart_loop (runs : list Z) (best : option OptimizeResult)
  : result (option OptimizeResult) :=
  match runs with
  | [] => Ok best
  | run :: runs' =>
      res <- de_restart run ;;
      restart_loop runs' (keep_best best res)
  end.

Definition global_search : result (option OptimizeResult) :=
  restart_loop restart_indices None.

(** Lines 94-97. *)
Definition local_refinement (best : OptimizeResult) : result OptimizeResult :=
  loc <- minimize func (res_x best) nelder_mead_options ;;
  Ok (if res_fun loc <? res_fun best then loc else best).

(** Both stages in sequence; [best.x] on [None] would be an [AttributeError]. *)
Definition fit : result OptimizeResult :=
  best <- global_search ;;
  match best with
  | Some b => local_refinement b
  | None => Raise AttributeError
  end.

End Pipeline.

(** ** Specification-level notions *)

(** A finite value inside the closed interval [[lo, hi]]. *)
Definition within (lo hi : R) (v : float) : Prop :=
  match v with
  | Fin r => lo <= r <= hi
  | _ => False
  end.


(** The regularisation term as the specification words it: weight 200, prior
    0.015, scale 0.02, squared. *)
Definition reg_term (m : R) : R := 200 * ((m - 15 / 1000) / (2 / 100)) ^ 2.

(** A value that is a number: not [nan]. *)
Definition is_number (v : float) : Prop := Float.isnan v = false.

(** Stand-ins for the two optimisers, to run the stages on concrete inputs:
    the first reports the centre of the box with a value read off its seed, the
    second stays at its start point and reports the value one. *)
Module Example.

Definition centre_de (f : list float -> result float)
    (bnds : list (float * float)) (seed popsize maxiter : Z)
  : result OptimizeResult :=
  Ok (mk_result [Fin 25; Fin 0; Fin 50] (Fin (IZR seed))).

Definition unit_minimize (f : list float -> result float)
    (x0 : list float) (opts : nm_options) : result OptimizeResult :=
  Ok (mk_result x0 (Fin 1)).

End Example.

(** An array whose entries are all finite. *)
Definition all_finite (a : list float) : Prop :=
  Forall (fun v => Float.isfinite v = true) a.

(** The real number a finite value stands for. *)
Definition to_R (v : float) : R :=
  match v with
  | Fin r => r
  | _ => 0
  end.

(** The L1 aggregate as the glossary words it: the sum, over the matched
    points, of the absolute differences between predicted and observed [y]. *)
Fixpoint sum_abs_diff (pred obs : list R) : R :=
  match pred, obs with
  | p :: pred', o :: obs' => Rabs (p - o) + sum_abs_diff pred' obs'
  | _, _ => 0
  end.

Definition le_float (a b : float) : Prop := Float.leb a b = true.

(** The interpolation table that [objective] builds on lines 31-32, and the
    interpolant of lines 34-36 over it. *)
Definition sorted_table (t_vals : list float) (theta M X : float)
  : list float * list float :=
  let '(x_pred, y_pred) := parametric_curve t_vals theta M X in
  let idx := argsort x_pred in
  (take x_pred idx, take y_pred idx).

Definition fitted_interp (t_vals : list float) (theta M X : float)
  : interp1d_t :=
  let '(x_sorted, y_sorted) := sorted_table t_vals theta M X in
  mk_interp1d x_sorted y_sorted (hd NaN y_sorted) (last y_sorted NaN).

(** [o] improves on [k]: it is [k] itself or its value is strictly lower. *)
Definition improves (o k : OptimizeResult) : Prop :=
  o = k \/ Float.ltb (res_fun o) (res_fun k) = true.

(** ** The rest of the script (main.py, lines 8, 53-54, 64-71, 114-118) *)

Definition T_MIN : Z := 6.
Definition T_MAX : Z := 60.

(** [np.linspace(start, stop, num)] with its default [endpoint=True]: [num]
    evenly spaced samples, the last one set to [stop] itself when there are at
    least two.  (NumPy computes [i * step] or, when the step is zero,
    [i / div * delta]; in exact arithmetic the two agree.) *)
Definition linspace (start stop : float) (num : nat) : list float :=
  let div := (num - 1)%nat in
  let delta := Float.sub stop start in
  let y := map (fun i => Fin (INR i)) (seq 0 num) in
  let y :=
    if (0 <? div)%nat
    then map (fun v => Float.mul v (Float.div delta (Fin (INR div)))) y
    else map (fun v => Float.mul v delta) y in
  let y := map (fun v => Float.add v start) y in
  if (1 <? num)%nat then removelast y ++ [stop] else y.

(** Lines 53-54: one curve parameter per observation. *)
Definition pipeline_t_vals (x_data : list float) : list float :=
  linspace (Fin (IZR T_MIN)) (Fin (IZR T_MAX)) (length x_data).

(** The exponential factor of line 18. *)
Definition exp_term_of (t M : float) : float :=
  Float.exp (Float.clip (Float.mul M (Float.abs t)) (Float.neg f30) f30).

(** Lines 64-71: the progress callback.  It closes over the objective and over
    the two lists of the current restart, which it extends in place; here the
    lists are threaded through as a state.  The line it prints is left out; it
    returns nothing, so the optimiser goes on. *)
Record progress_log : Type := mk_log {
  progress : list float;
  snapshots : list (list float)
}.

Definition empty_log : progress_log := mk_log [] [].

Definition log_progress (f : list float -> result float)
    (log : progress_log) (xk : list float) : result progress_log :=
  val <- f xk ;;
  let progress' := progress log ++ [val] in
  if (length progress' mod 10 =? 0)%nat
  then Ok (mk_log progress' (snapshots log ++ [xk]))
  else Ok (mk_log progress' (snapshots log)).

(** The callback applied to the iterates that one restart reports, in order. *)
Fixpoint callbacks (f : list float -> result float) (xs : list (list float))
    (log : progress_log) : result progress_log :=
  match xs with
  | [] => Ok log
  | xk :: xs' => log' <- log_progress f log xk ;; callbacks f xs' log'
  end.

(** Line 118: [global_snapshots[0][0]]. *)
Definition first_snapshot_params (global_snapshots : list (list (list float)))
  : result (list float) :=
  match global_snapshots with
  | [] => Raise IndexError
  | run1 :: _ =>
      match run1 with
      | [] => Raise IndexError
      | p :: _ => Ok p
      end
  end.

Definition lt_float (a b : float) : Prop := Float.ltb a b = true.

(** The [i]-th of [n] evenly spaced values from [a] to [b]. *)
Definition even_spacing (a b : R) (n i : nat) : R :=
  a + INR i * ((b - a) / INR (n - 1)).

(** What the two lists hold after the callback has seen the iterates [xs]. *)
Definition logged (f : list float -> result float) (xs : list (list float)) (log : progress_log) : Prop :=
  length (progress log) = length xs
  /\ (forall i, (i < length xs)%nat ->
        f (nth i xs []) = Ok (nth i (progress log) NaN))
  /\ length (snapshots log) = (length xs / 10)%nat
  /\ (forall j, (j < length xs / 10)%nat ->
        nth j (snapshots log) [] = nth (10 * j + 9) xs []).

(** ** The same code within the range of float64

    The definitions above read every arithmetic operation as exact.  Where
    the size of a result decides what the code does, the operations are read
    with the overflow of float64: a result whose magnitude reaches
    [2^1024 - 2^970] becomes the infinity of its sign, as rounding to nearest
    does; below that bound the result is still the exact real (rounding and
    underflow stay abstracted).  The functions are those of the source once
    more, over these operations; comparisons, [abs], [sin], [cos], [clip],
    sorting and the construction of the interpolant involve no arithmetic and
    are shared. *)

Definition two_p970 : R := 2 ^ 970.

(** The least magnitude that rounds to an infinity, [2^1024 - 2^970], and the
    largest float64, [2^1024 - 2^971]. *)
Definition OMEGA : R := 18014398509481983 * two_p970.
Definition MAX_FLOAT : R := 18014398509481982 * two_p970.

Definition overflow (v : float) : float :=
  match v with
  | Fin r => if Rleb OMEGA (Rabs r) then Float.inf_of_sign r else Fin r
  | _ => v
  end.

Module F64.

Definition add (a b : float) : float := overflow (Float.add a b).
Definition sub (a b : float) : float := overflow (Float.sub a b).
Definition mul (a b : float) : float := overflow (Float.mul a b).
Definition div (a b : float) : float := overflow (Float.div a b).
Definition sqr (a : float) : float := mul a a.
Definition exp (a : float) : float := overflow (Float.exp a).
Definition hypot (a b : float) : float := overflow (Float.hypot a b).
Definition deg2rad (a : float) : float := mul a (Fin (PI / 180)).

End F64.

(** Lines 16-22. *)
Definition curve_point64 (t theta_deg M X : float) : float * float :=
  let th := F64.deg2rad theta_deg in
  let exp_term :=
    F64.exp (Float.clip (F64.mul M (Float.abs t)) (Float.neg f30) f30) in
  let sin_term := Float.sin (F64.mul f0_3 t) in
  let x := F64.add (F64.sub (F64.mul t (Float.cos th))
                            (F64.mul (F64.mul exp_term sin_term) (Float.sin th)))
                   X in
  let y := F64.add (F64.add f42 (F64.mul t (Float.sin th)))
                   (F64.mul (F64.mul exp_term sin_term) (Float.cos th)) in
  (x, y).

Definition parametric_curve64 (t : list float) (theta_deg M X : float)
  : list float * list float :=
  (map (fun ti => fst (curve_point64 ti theta_deg M X)) t,
   map (fun ti => snd (curve_point64 ti theta_deg M X)) t).

(** [np.interp] and the evaluation of the interpolant. *)
Definition segment64 (x0 y0 x1 y1 q : float) : float :=
  if Float.eqb x0 q then y0
  else
    let slope := F64.div (F64.sub y1 y0) (F64.sub x1 x0) in
    let r := F64.add (F64.mul slope (F64.sub q x0)) y0 in
    if Float.isnan r then
      let r' := F64.add (F64.mul slope (F64.sub q x1)) y1 in
      if Float.isnan r' && Float.eqb y0 y1 then y0 else r'
    else r.

Fixpoint interp_scan64 (xp fp : list float) (q : float) : float :=
  match xp, fp with
  | x0 :: ((x1 :: _) as xp'), y0 :: ((y1 :: _) as fp') =>
      if Float.ltb q x1 then segment64 x0 y0 x1 y1 q
      else interp_scan64 xp' fp' q
  | [_], y0 :: _ => y0
  | _, _ => NaN
  end.

Definition np_interp64 (xp fp : list float) (q : float) : float :=
  match xp, fp with
  | x0 :: _, y0 :: _ =>
      let xl := last xp x0 in
      let yl := last fp y0 in
      if (length xp =? 1)%nat then
        if Float.ltb q x0 then y0 else if Float.ltb x0 q then yl else y0
      else if Float.isnan q then q
      else if Float.ltb xl q then yl
      else if Float.ltb q x0 then y0
      else interp_scan64 xp fp q
  | _, _ => NaN
  end.

Definition interp_at64 (f : interp1d_t) (q : float) : float :=
  let y := np_interp64 (ip_x f) (ip_y f) q in
  let y := if Float.ltb q (hd NaN (ip_x f)) then ip_below f else y in
  if Float.ltb (last (ip_x f) NaN) q then ip_above f else y.

Definition interp_call64 (f : interp1d_t) (x_new : list float) : list float :=
  map (interp_at64 f) x_new.

Definition np_sub64 : list float -> list float -> result (list float) :=
  broadcast2 F64.sub.

Definition np_hypot64 : list float -> list float -> result (list float) :=
  broadcast2 F64.hypot.

Definition np_sum64 (a : list float) : float := fold_left F64.add a f0.

(** Lines 24-43. *)
Definition try_interp64 (x_sorted y_sorted x_data : list float)
  : result (list float) :=
  y_first <- getitem y_sorted 0 ;;
  y_last <- getitem_last y_sorted ;;
  interp <- interp1d x_sorted y_sorted (y_first, y_last) ;;
  Ok (interp_call64 interp x_data).

Definition residual_error64 (use_euclidean : bool) (dy : list float) : float :=
  if negb use_euclidean then np_sum64 (map Float.abs dy)
  else np_sum64 (map2 F64.hypot (np_zeros_like dy) dy).

Definition reg_of64 (M : float) : float :=
  F64.sqr (F64.div (F64.sub M f0_015) f0_02).

Definition objective64_flag (use_euclidean : bool)
    (params t_vals x_data y_data : list float) : result float :=
  match params with
  | [theta; M; X] =>
      if negb (in_box theta M X) then Ok PInf
      else
        let '(x_pred, y_pred) := parametric_curve64 t_vals theta M X in
        if negb (np_all_isfinite x_pred) || negb (np_all_isfinite y_pred)
        then Ok PInf
        else
          let idx := argsort x_pred in
          let x_sorted := take x_pred idx in
          let y_sorted := take y_pred idx in
          match try_interp64 x_sorted y_sorted x_data with
          | Raise _ => Ok PInf
          | Ok y_interp =>
              dy <- np_sub64 y_interp y_data ;;
              let err := residual_error64 use_euclidean dy in
              let reg := reg_of64 M in
              Ok (F64.add err (F64.mul f200 reg))
          end
  | _ => Raise ValueError
  end.

Definition objective64 : list float -> list float -> list float -> list float
                         -> result float :=
  objective64_flag USE_EUCLIDEAN.

(** Lines 114-115: the distance of every observation from the fitted sample
    of the same index. *)
Definition residuals64 (t_vals : list float) (theta M X : float)
    (x_data y_data : list float) : result (list float) :=
  let '(x_fit, y_fit) := parametric_curve64 t_vals theta M X in
  dx <- np_sub64 x_fit x_data ;;
  dy <- np_sub64 y_fit y_data ;;
  np_hypot64 dx dy.

Definition sorted_table64 (t_vals : list float) (theta M X : float)
  : list float * list float :=
  let '(x_pred, y_pred) := parametric_curve64 t_vals theta M X in
  let idx := argsort x_pred in
  (take x_pred idx, take y_pred idx).

(** The interpolant that [objective] builds on that table. *)
Definition fitted_interp64 (t_vals : list float) (theta M X : float)
  : interp1d_t :=
  let '(x_sorted, y_sorted) := sorted_table64 t_vals theta M X in
  mk_interp1d x_sorted y_sorted (hd NaN y_sorted) (last y_sorted NaN).

(** A value that is not negative: a finite number from zero up, [+inf], or
    [nan], which has no sign. *)
Definition nonneg_or_nan (v : float) : Prop :=
  match v with
  | Fin r => 0 <= r
  | PInf => True
  | NInf => False
  | NaN => True
  end.


(** Inputs on which float64 leaves the exact reading. *)
Module Extreme.



End Extreme.

(** * Properties *)

(** ** Comparisons *)

Lemma Rleb_true (a b : R) : Rleb a b = true <-> a <= b.
Proof. unfold Rleb; destruct (Rle_dec a b); split; intros; try easy. Qed.

Lemma Rleb_false (a b : R) : Rleb a b = false <-> b < a.
Proof. unfold Rleb; destruct (Rle_dec a b); split; intros; try easy; lra. Qed.

Lemma Rltb_true (a b : R) : Rltb a b = true <-> a < b.
Proof. unfold Rltb; destruct (Rlt_dec a b); split; intros; try easy. Qed.

Lemma Rltb_false (a b : R) : Rltb a b = false <-> b <= a.
Proof. unfold Rltb; destruct (Rlt_dec a b); split; intros; try easy; lra. Qed.

Lemma Reqb_true (a b : R) : Reqb a b = true <-> a = b.
Proof. unfold Reqb; destruct (Req_dec_T a b); split; intros; try easy. Qed.

Lemma Reqb_false (a b : R) : Reqb a b = false <-> a <> b.
Proof. unfold Reqb; destruct (Req_dec_T a b); split; intros; try easy. Qed.

(** Case analysis on a boolean comparison, leaving the real inequality in the
    context. *)
Ltac cmp_cases :=
  repeat match goal with
  | |- context [Rleb ?a ?b] =>
      let E := fresh "E" in
      destruct (Rleb a b) eqn:E;
      [apply Rleb_true in E | apply Rleb_false in E]
  | |- context [Rltb ?a ?b] =>
      let E := fresh "E" in
      destruct (Rltb a b) eqn:E;
      [apply Rltb_true in E | apply Rltb_false in E]
  | |- context [Reqb ?a ?b] =>
      let E := fresh "E" in
      destruct (Reqb a b) eqn:E;
      [apply Reqb_true in E | apply Reqb_false in E]
  end.

(** ** The curve at [t = 0] *)

Lemma clip_zero : Float.clip (Fin 0) (Float.neg f30) f30 = Fin 0.
Proof.
  unfold Float.clip, Float.maximum, Float.minimum, f30; simpl.
  cmp_cases; simpl; cmp_cases; try reflexivity; lra.
Qed.

(** C8.  For [theta] in [[0, 50]] and [M] in [[-0.08, 0.08]] and any [X], the
    curve sampled at [t = 0] has [y = 42] exactly: [t * sin(th)] is zero and
    the product [exp_term * sin_term * cos(th)] vanishes with [sin(0.3 * 0)]. *)
Theorem curve_y_at_zero (theta M X : float) :
  within 0 50 theta ->
  within (- (8 / 100)) (8 / 100) M ->
  snd (parametric_curve [f0] theta M X) = [f42].
Proof.
  intros Ht HM.
  destruct theta as [th | | |]; try contradiction.
  destruct M as [m | | |]; try contradiction.
  unfold parametric_curve, curve_point. cbn [map snd].
  replace (Fin m * Float.abs f0)%float with (Fin 0)
    by (unfold f0; simpl; rewrite Rabs_R0, Rmult_0_r; reflexivity).
  rewrite clip_zero.
  unfold f0, f42, f0_3; simpl.
  rewrite Rmult_0_r, sin_0, exp_0.
  do 2 f_equal. ring.
Qed.

Lemma curve_y_at_zero_witness :
  snd (parametric_curve [f0] (Fin 25) (Fin (15 / 1000)) (Fin 50)) = [f42].
Proof.
  apply curve_y_at_zero; simpl; lra.
Defined.

(** ** The bounds guard *)

Lemma leb_within (lo hi : R) (v : float) :
  (Float.leb (Fin lo) v && Float.leb v (Fin hi)) = true <-> within lo hi v.
Proof.
  destruct v as [r | | |]; simpl; try (split; [discriminate | contradiction]).
  rewrite andb_true_iff, !Rleb_true. tauto.
Qed.

Lemma in_box_spec (theta M X : float) :
  in_box theta M X = true <->
  within 0 50 theta /\ within (- (8 / 100)) (8 / 100) M /\ within 0 100 X.
Proof.
  unfold in_box.
  rewrite <- !leb_within, !andb_true_iff.
  unfold f0, f50, f0_08, f100; simpl. tauto.
Qed.

(** C1.  When at least one of the three parameters lies outside its interval
    (which includes the non-finite values), [objective] returns [+inf]; it does
    so for every [t_vals], [x_data] and [y_data], also for those on which the
    later stages would fail, and whatever the curve function would compute:
    the guard answers before the curve is sampled. *)
Theorem objective_out_of_box (theta M X : float)
    (t_vals x_data y_data : list float) :
  ~ within 0 50 theta \/ ~ within (- (8 / 100)) (8 / 100) M
    \/ ~ within 0 100 X ->
  objective [theta; M; X] t_vals x_data y_data = Ok PInf
  /\ forall curve flag,
       objective_with curve flag [theta; M; X] t_vals x_data y_data = Ok PInf.
Proof.
  intros Hout.
  assert (Hbox : in_box theta M X = false).
  { destruct (in_box theta M X) eqn:Hbox; [| reflexivity].
    apply in_box_spec in Hbox. tauto. }
  split; [| intros curve flag];
    unfold objective, objective_flag, objective_with; now rewrite Hbox.
Qed.

Lemma objective_out_of_box_witness :
  objective [Fin 51; Fin 0; NaN] [PInf] [f0; f0] [f0] = Ok PInf.
Proof.
  apply (objective_out_of_box (Fin 51) (Fin 0) NaN). left. simpl. lra.
Defined.

(** ** The regularisation term *)

Lemma reg_of_finite (m : R) :
  Float.mul f200 (reg_of (Fin m)) = Fin (reg_term m).
Proof.
  unfold reg_of, reg_term, Float.sqr, f200, f0_015, f0_02; simpl.
  destruct (Reqb (2 / 100) 0) eqn:E;
    [apply Reqb_true in E; lra | clear E].
  simpl. f_equal. field.
Qed.

Lemma regularization_floor (m : R) : 0 <= reg_term m.
Proof.
  unfold reg_term.
  pose proof (pow2_ge_0 ((m - 15 / 1000) / (2 / 100))). lra.
Qed.

(** ** The two residual aggregations *)

Lemma hypot_zero (v : float) : Float.hypot f0 v = Float.abs v.
Proof.
  destruct v as [y | | |]; simpl; try reflexivity.
  f_equal. replace (0 * 0 + y * y) with (Rsqr y) by (unfold Rsqr; ring).
  apply sqrt_Rsqr_abs.
Qed.

Lemma hypot_zeros_like (dy : list float) :
  map2 Float.hypot (np_zeros_like dy) dy = map Float.abs dy.
Proof.
  unfold np_zeros_like.
  induction dy as [| v dy IH]; cbn [map map2]; [reflexivity |].
  now rewrite hypot_zero, IH.
Qed.

Lemma residual_error_flag (b : bool) (dy : list float) :
  residual_error b dy = np_sum (map Float.abs dy).
Proof.
  destruct b; unfold residual_error; simpl; [| reflexivity].
  now rewrite hypot_zeros_like.
Qed.

(** C10.  The Euclidean branch of line 41 computes the same number as the L1
    branch: [hypot(0, dy_i) = |dy_i|] for every residual, so the two sums agree
    and [objective] returns the same result for either value of the flag. *)
Theorem euclidean_flag_irrelevant (dy params t_vals x_data y_data : list float) :
  np_sum (map2 Float.hypot (np_zeros_like dy) dy) = np_sum (map Float.abs dy)
  /\ objective_flag true params t_vals x_data y_data
     = objective_flag false params t_vals x_data y_data.
Proof.
  split; [now rewrite hypot_zeros_like |].
  unfold objective_flag, objective_with.
  destruct params as [| theta [| M [| X [|]]]]; try reflexivity.
  destruct (negb (in_box theta M X)); [reflexivity |].
  destruct (parametric_curve t_vals theta M X) as [x_pred y_pred].
  destruct (negb (np_all_isfinite x_pred) || negb (np_all_isfinite y_pred));
    [reflexivity |].
  destruct (try_interp _ _ x_data) as [y_interp |]; [| reflexivity].
  destruct (np_sub y_interp y_data) as [dy' |]; simpl; [| reflexivity].
  now rewrite !residual_error_flag.
Qed.

(** ** Ordering of values *)

Lemma ltb_leb (a b : float) : Float.ltb a b = true -> Float.leb a b = true.
Proof.
  destruct a, b; simpl; try easy.
  rewrite Rltb_true, Rleb_true. lra.
Qed.

Lemma leb_refl (a : float) : is_number a -> Float.leb a a = true.
Proof.
  destruct a; simpl; try easy.
  intros _. apply Rleb_true. lra.
Qed.

Lemma ltb_false_leb (a b : float) :
  is_number a -> is_number b -> Float.ltb a b = false -> Float.leb b a = true.
Proof.
  destruct a, b; simpl; try easy.
  intros _ _. rewrite Rltb_false, Rleb_true. tauto.
Qed.

Lemma leb_trans (a b c : float) :
  Float.leb a b = true -> Float.leb b c = true -> Float.leb a c = true.
Proof.
  destruct a, b, c; simpl; try easy.
  rewrite !Rleb_true. lra.
Qed.

Lemma ltb_irrefl (a : float) : Float.ltb a a = false.
Proof. destruct a; simpl; try easy. apply Rltb_false. lra. Qed.

Lemma ltb_trans (a b c : float) :
  Float.ltb a b = true -> Float.ltb b c = true -> Float.ltb a c = true.
Proof.
  destruct a, b, c; simpl; try easy.
  rewrite !Rltb_true. lra.
Qed.

Lemma improves_trans (o k b : OptimizeResult) :
  improves o k -> improves k b -> improves o b.
Proof.
  intros [-> | Hok] [-> | Hkb]; unfold improves; auto.
  right. eapply ltb_trans; eassumption.
Qed.

Lemma not_below_improved (v : float) (o k : OptimizeResult) :
  Float.ltb v (res_fun k) = false -> improves o k ->
  Float.ltb v (res_fun o) = false.
Proof.
  intros Hvk [-> | Hok]; [exact Hvk |].
  destruct (Float.ltb v (res_fun o)) eqn:Hvo; [| reflexivity].
  now rewrite (ltb_trans _ _ _ Hvo Hok) in Hvk.
Qed.

(** ** The optimisation stages *)

Section PipelineProperties.

Variable differential_evolution :
  (list float -> result float) -> list (float * float) ->
  Z -> Z -> Z -> result OptimizeResult.
Variable minimize :
  (list float -> result float) -> list float -> nm_options ->
  result OptimizeResult.
Variables t_vals x_data y_data : list float.

Local Abbreviation de_run := (de_restart differential_evolution t_vals x_data y_data).
Local Abbreviation loop := (restart_loop differential_evolution t_vals x_data y_data).

Lemma keep_best_spec (best : option OptimizeResult) (res : OptimizeResult) :
  exists k,
    keep_best best res = Some k
    /\ (k = res \/ best = Some k)
    /\ Float.ltb (res_fun res) (res_fun k) = false
    /\ (forall b, best = Some b -> improves k b).
Proof.
  destruct best as [b |]; simpl.
  - destruct (Float.ltb (res_fun res) (res_fun b)) eqn:Hlt.
    + exists res. repeat split; auto using ltb_irrefl.
      intros b' [= <-]. now right.
    + exists b. repeat split; auto.
      intros b' [= <-]. now left.
  - exists res. repeat split; auto using ltb_irrefl.
    intros b' [=].
Qed.

(** The loop returns as soon as every restart does. *)
Lemma restart_loop_returns (runs : list Z) :
  (forall run, In run runs -> exists res, de_run run = Ok res) ->
  forall best, exists out, loop runs best = Ok out.
Proof.
  induction runs as [| run runs IH]; intros Hall best; simpl.
  - now exists best.
  - destruct (Hall run (or_introl eq_refl)) as [res ->]. simpl.
    apply IH. intros r Hr. apply Hall. now right.
Qed.

(** Invariant of the loop: the incumbent is the start incumbent or one of
    the restart results; it improves on the start incumbent, and no restart
    result has a value strictly below its value. *)
Lemma restart_loop_spec (runs : list Z) :
  forall best out,
    loop runs best = Ok out ->
    (out = best
     \/ exists run res, In run runs /\ de_run run = Ok res /\ out = Some res)
    /\ (forall b, best = Some b -> exists o, out = Some o /\ improves o b)
    /\ (forall run res, In run runs -> de_run run = Ok res ->
         exists o, out = Some o
                   /\ Float.ltb (res_fun res) (res_fun o) = false).
Proof.
  induction runs as [| run runs IH]; intros best out Hloop.
  - simpl in Hloop. injection Hloop as <-.
    repeat split.
    + now left.
    + intros b ->. exists b. split; [reflexivity | now left].
    + intros r res [].
  - simpl in Hloop.
    destruct (de_run run) as [res |] eqn:Hrun; simpl in Hloop; [| discriminate].
    destruct (keep_best_spec best res) as (k & Hk & Horigin & Hres & Hkbest).
    rewrite Hk in Hloop.
    apply IH in Hloop as (Hfrom & Hstart & Hruns).
    destruct (Hstart k eq_refl) as (o & -> & Hok).
    repeat split.
    + destruct Hfrom as [Hsame | (r & res' & Hin & Hr & Hout)].
      * injection Hsame as ->.
        destruct Horigin as [-> | ->]; [right | now left].
        exists run, res. repeat split; auto. now left.
      * right. exists r, res'. repeat split; auto. now right.
    + intros b Hb. exists o. split; [reflexivity |].
      eapply improves_trans; [exact Hok |]. now apply Hkbest.
    + intros r res' [<- | Hin] Hr.
      * rewrite Hrun in Hr. injection Hr as <-.
        exists o. split; [reflexivity |].
        eapply not_below_improved; eassumption.
      * now apply (Hruns r).
Qed.

Lemma restart_indices_spec (run : Z) :
  In run restart_indices <-> (1 <= run <= Z.of_nat N_STARTS)%Z.
Proof.
  unfold restart_indices. rewrite in_map_iff. split.
  - intros (n & <- & Hn). apply in_seq in Hn. lia.
  - intros H. exists (Z.to_nat run). split; [lia |].
    apply in_seq. lia.
Qed.

(** C4.  When every restart [1 .. N_STARTS] has returned, the global search
    returns an incumbent: it is the result of one of these restarts, each run
    with the seed [RANDOM_SEED + 3 * run], and no restart has a value strictly
    below the incumbent's; among values that are numbers the incumbent's is
    the least. *)
Theorem global_search_keeps_lowest :
  (forall run, (1 <= run <= Z.of_nat N_STARTS)%Z ->
     exists res,
       differential_evolution (func t_vals x_data y_data) bounds
         (RANDOM_SEED + run * 3) POP_SIZE MAX_ITER = Ok res) ->
  exists best,
    global_search differential_evolution t_vals x_data y_data = Ok (Some best)
    /\ (exists run, (1 <= run <= Z.of_nat N_STARTS)%Z /\
         differential_evolution (func t_vals x_data y_data) bounds
           (RANDOM_SEED + run * 3) POP_SIZE MAX_ITER = Ok best)
    /\ (forall run res, (1 <= run <= Z.of_nat N_STARTS)%Z ->
         differential_evolution (func t_vals x_data y_data) bounds
           (RANDOM_SEED + run * 3) POP_SIZE MAX_ITER = Ok res ->
         Float.ltb (res_fun res) (res_fun best) = false
         /\ (is_number (res_fun res) -> is_number (res_fun best) ->
             Float.leb (res_fun best) (res_fun res) = true)).
Proof.
  intros Hall.
  destruct (restart_loop_returns restart_indices) with (best := @None OptimizeResult)
    as [out Hout].
  { intros run Hrun. apply restart_indices_spec in Hrun.
    exact (Hall run Hrun). }
  pose proof Hout as Hspec.
  apply restart_loop_spec in Hspec as (Hfrom & _ & Hlow).
  assert (H1 : In 1%Z restart_indices)
    by (apply restart_indices_spec; unfold N_STARTS; lia).
  destruct (Hall 1%Z) as (res1 & Hres1); [unfold N_STARTS; lia |].
  destruct (Hlow 1%Z res1 H1 Hres1) as (best & -> & _).
  exists best. split; [exact Hout |]. split.
  - destruct Hfrom as [Hnone | (run & res & Hin & Hrun & Hsome)];
      [discriminate |].
    injection Hsome as <-. exists run. split; [| exact Hrun].
    now apply restart_indices_spec.
  - intros run res Hrun Hres.
    apply restart_indices_spec in Hrun.
    destruct (Hlow run res Hrun Hres) as (o & [= <-] & Ho).
    split; [exact Ho |].
    intros Hn1 Hn2. now apply ltb_false_leb.
Qed.

(** C3.  Once the local optimiser has returned [loc], the refinement stage
    returns [loc] when its value is strictly below the incumbent's and the
    incumbent itself otherwise.  The value of what it returns is never above
    the incumbent's and, the incumbent's value being a number, is at most that
    value.  The whole pipeline returns this result. *)
Theorem local_refinement_never_regresses (best loc : OptimizeResult) :
  minimize (func t_vals x_data y_data) (res_x best) nelder_mead_options
    = Ok loc ->
  exists final,
    local_refinement minimize t_vals x_data y_data best = Ok final
    /\ (Float.ltb (res_fun loc) (res_fun best) = true -> final = loc)
    /\ (Float.ltb (res_fun loc) (res_fun best) = false -> final = best)
    /\ Float.ltb (res_fun best) (res_fun final) = false
    /\ (is_number (res_fun best) ->
        Float.leb (res_fun final) (res_fun best) = true)
    /\ (global_search differential_evolution t_vals x_data y_data
          = Ok (Some best) ->
        fit differential_evolution minimize t_vals x_data y_data = Ok final).
Proof.
  intros Hloc.
  assert (Hstage :
    local_refinement minimize t_vals x_data y_data best
    = Ok (if Float.ltb (res_fun loc) (res_fun best) then loc else best))
    by (unfold local_refinement; now rewrite Hloc).
  exists (if Float.ltb (res_fun loc) (res_fun best) then loc else best).
  split; [exact Hstage |].
  split; [now intros -> |]. split; [now intros -> |].
  split; [| split].
  - destruct (Float.ltb (res_fun loc) (res_fun best)) eqn:Hlt;
      [| apply ltb_irrefl].
    destruct (Float.ltb (res_fun best) (res_fun loc)) eqn:Hgt;
      [| reflexivity].
    now rewrite <- (ltb_irrefl (res_fun loc)), (ltb_trans _ _ _ Hlt Hgt).
  - intros Hnum.
    destruct (Float.ltb (res_fun loc) (res_fun best)) eqn:Hlt;
      [now apply ltb_leb | now apply leb_refl].
  - intros Hglobal. unfold fit. rewrite Hglobal. exact Hstage.
Qed.

End PipelineProperties.

Lemma global_search_keeps_lowest_witness :
  exists best,
    global_search Example.centre_de [f0; f42] [f0; f0] [f42; f42]
      = Ok (Some best)
    /\ Float.ltb (Fin 45) (res_fun best) = false.
Proof.
  destruct (global_search_keeps_lowest Example.centre_de
              [f0; f42] [f0; f0] [f42; f42]) as (best & Hbest & _ & Hlow).
  - intros run _. eexists. reflexivity.
  - exists best. split; [exact Hbest |].
    apply (Hlow 1%Z (mk_result [Fin 25; Fin 0; Fin 50] (Fin 45)));
      [unfold N_STARTS; lia | reflexivity].
Defined.

Lemma local_refinement_never_regresses_witness :
  exists final,
    local_refinement Example.unit_minimize [f0; f42] [f0; f0] [f42; f42]
      (mk_result [Fin 25; f0; f50] (Fin 2)) = Ok final
    /\ final = mk_result [Fin 25; f0; f50] (Fin 1).
Proof.
  destruct (local_refinement_never_regresses Example.centre_de
              Example.unit_minimize
              [f0; f42] [f0; f0] [f42; f42]
              (mk_result [Fin 25; f0; f50] (Fin 2))
              (mk_result [Fin 25; f0; f50] (Fin 1)))
    as (final & Hfinal & Hlt & _).
  - reflexivity.
  - exists final. split; [exact Hfinal |].
    apply Hlt. simpl. apply Rltb_true. lra.
Defined.

(** ** Finite values stay finite *)

Lemma isfinite_inv (v : float) : Float.isfinite v = true -> exists r, v = Fin r.
Proof. destruct v; simpl; intros H; try discriminate. now eexists. Qed.

Lemma all_finite_forallb (a : list float) :
  all_finite a <-> np_all_isfinite a = true.
Proof.
  unfold all_finite, np_all_isfinite.
  rewrite forallb_forall, Forall_forall. reflexivity.
Qed.

Lemma all_finite_map_to_R (a : list float) :
  all_finite a -> a = map Fin (map to_R a).
Proof.
  induction 1 as [| v a Hv _ IH]; simpl; [reflexivity |].
  destruct (isfinite_inv v Hv) as [r ->]. simpl. now f_equal.
Qed.

Lemma all_finite_map_Fin (l : list R) : all_finite (map Fin l).
Proof. induction l; constructor; auto. Qed.

Lemma clip_finite (r : R) :
  exists c, Float.clip (Fin r) (Float.neg f30) f30 = Fin c.
Proof.
  unfold Float.clip, Float.maximum, Float.minimum, f30; simpl.
  destruct (Rleb r (- (30))); simpl;
    match goal with |- context [Rleb ?a ?b] => destruct (Rleb a b) end;
    eexists; reflexivity.
Qed.

Lemma curve_point_finite (t th m X : R) :
  exists x y, curve_point (Fin t) (Fin th) (Fin m) (Fin X) = (Fin x, Fin y).
Proof.
  unfold curve_point.
  change (Float.mul (Fin m) (Float.abs (Fin t))) with (Fin (m * Rabs t)).
  destruct (clip_finite (m * Rabs t)) as [c ->].
  simpl. eexists. eexists. reflexivity.
Qed.

Lemma parametric_curve_finite (t_vals : list float) (th m X : R) :
  all_finite t_vals ->
  all_finite (fst (parametric_curve t_vals (Fin th) (Fin m) (Fin X)))
  /\ all_finite (snd (parametric_curve t_vals (Fin th) (Fin m) (Fin X))).
Proof.
  unfold parametric_curve, all_finite; cbn [fst snd].
  rewrite !Forall_map.
  intros Hall; split; eapply Forall_impl; try exact Hall;
    intros v Hv; destruct (isfinite_inv v Hv) as [t ->];
    destruct (curve_point_finite t th m X) as (x & y & ->); reflexivity.
Qed.

Lemma parametric_curve_length (t_vals : list float) (theta M X : float) :
  length (fst (parametric_curve t_vals theta M X)) = length t_vals
  /\ length (snd (parametric_curve t_vals theta M X)) = length t_vals.
Proof. unfold parametric_curve; simpl. now rewrite !length_map. Qed.

(** ** Sorting by [argsort] *)

Lemma leb_total (a b : float) :
  Float.isfinite a = true -> Float.isfinite b = true ->
  Float.leb a b = false -> Float.leb b a = true.
Proof.
  destruct a, b; simpl; try discriminate.
  intros _ _. rewrite Rleb_false, Rleb_true. lra.
Qed.

Section InsertionSort.

Variable key : nat -> float.

Let key_le (i j : nat) : Prop := le_float (key i) (key j).
Let key_finite (i : nat) : Prop := Float.isfinite (key i) = true.

Lemma insert_by_perm (i : nat) (l : list nat) :
  Permutation (i :: l) (insert_by key i l).
Proof.
  induction l as [| j l IH]; simpl; [reflexivity |].
  destruct (Float.leb (key i) (key j) || Float.isnan (key j));
    [reflexivity |].
  rewrite perm_swap. now constructor.
Qed.

Lemma sort_indices_perm (l : list nat) :
  Permutation l (fold_right (insert_by key) [] l).
Proof.
  induction l as [| i l IH]; simpl; [constructor |].
  rewrite <- insert_by_perm. now constructor.
Qed.

Lemma insert_by_sorted (i : nat) (l : list nat) :
  key_finite i -> Forall key_finite l ->
  StronglySorted key_le l -> StronglySorted key_le (insert_by key i l).
Proof.
  intros Hi Hl Hs.
  induction Hs as [| j l Hs IH Hj]; simpl.
  - repeat constructor.
  - inversion Hl as [| ? ? Hjf Hlf]; subst.
    assert (Hnan : Float.isnan (key j) = false)
      by (unfold key_finite in Hjf; destruct (key j); easy).
    rewrite Hnan, orb_false_r.
    destruct (Float.leb (key i) (key j)) eqn:Hij.
    + constructor; [now constructor |].
      constructor; [exact Hij |].
      eapply Forall_impl; [| exact Hj].
      intros k Hk. unfold key_le, le_float in *.
      eapply leb_trans; eassumption.
    + constructor; [now apply IH |].
      rewrite <- insert_by_perm.
      constructor; [| exact Hj].
      now apply leb_total.
Qed.

Lemma sort_indices_sorted (l : list nat) :
  Forall key_finite l -> StronglySorted key_le (fold_right (insert_by key) [] l).
Proof.
  induction 1 as [| i l Hi Hl IH]; simpl; [constructor |].
  apply insert_by_sorted; auto.
  now rewrite <- sort_indices_perm.
Qed.

(** Indices whose keys already ascend are left where they are. *)
Lemma sort_indices_ascending (n : nat) :
  forall s,
    (forall i, (s <= i)%nat -> (S i < s + n)%nat -> key_le i (S i)) ->
    fold_right (insert_by key) [] (seq s n) = seq s n.
Proof.
  induction n as [| n IH]; intros s Hasc; simpl; [reflexivity |].
  rewrite IH by (intros i H1 H2; apply Hasc; lia).
  destruct n as [| n]; simpl; [reflexivity |].
  unfold key_le, le_float in Hasc.
  rewrite Hasc by lia. reflexivity.
Qed.

(** Keys that are [nan] go behind every other key. *)
Lemma insert_by_nan_last (i j : nat) (l : list nat) :
  Float.isnan (key i) = true -> Float.isnan (key j) = false ->
  insert_by key i (j :: l) = j :: insert_by key i l.
Proof.
  intros Hi Hj. simpl. rewrite Hj, orb_false_r.
  destruct (key i); try discriminate. reflexivity.
Qed.

Lemma sorted_map_key (idx : list nat) :
  StronglySorted key_le idx -> StronglySorted le_float (map key idx).
Proof.
  induction 1 as [| i idx Hs IH Hi]; simpl; constructor; auto.
  now rewrite Forall_map.
Qed.

End InsertionSort.

Lemma sorted_adjacent (l : list float) :
  StronglySorted le_float l ->
  forall i, (S i < length l)%nat -> le_float (nth i l NaN) (nth (S i) l NaN).
Proof.
  induction 1 as [| a l Hs IH Ha]; intros i Hi; simpl in Hi; [lia |].
  destruct i as [| i].
  - destruct l as [| b l]; simpl in *; [lia |].
    now inversion Ha.
  - apply (IH i). lia.
Qed.

Lemma take_seq (a : list float) : take a (seq 0 (length a)) = a.
Proof.
  unfold take.
  induction a as [| v a IH]; simpl; [reflexivity |].
  f_equal. rewrite <- seq_shift, map_map. exact IH.
Qed.

Lemma take_length (a : list float) (idx : list nat) :
  length (take a idx) = length idx.
Proof. apply length_map. Qed.

Lemma argsort_perm (a : list float) :
  Permutation (seq 0 (length a)) (argsort a).
Proof. apply sort_indices_perm. Qed.

Lemma argsort_length (a : list float) : length (argsort a) = length a.
Proof.
  rewrite <- (Permutation_length (argsort_perm a)). apply length_seq.
Qed.

Lemma argsort_in_range (a : list float) (i : nat) :
  In i (argsort a) <-> (i < length a)%nat.
Proof.
  split.
  - intros Hi. apply (Permutation_in _ (Permutation_sym (argsort_perm a))) in Hi.
    apply in_seq in Hi. lia.
  - intros Hi. apply (Permutation_in _ (argsort_perm a)).
    apply in_seq. lia.
Qed.

Lemma take_in (a : list float) (idx : list nat) (v : float) :
  Forall (fun i => (i < length a)%nat) idx -> In v (take a idx) -> In v a.
Proof.
  unfold take. intros Hidx Hv.
  apply in_map_iff in Hv as (i & <- & Hi).
  rewrite Forall_forall in Hidx. apply nth_In. now apply Hidx.
Qed.

Lemma argsort_indices_valid (a : list float) :
  Forall (fun i => (i < length a)%nat) (argsort a).
Proof. apply Forall_forall. intros i. apply argsort_in_range. Qed.

(** Reordering by [argsort] keeps the entries: every entry of the reordered
    array is one of the original, and conversely. *)
Lemma take_argsort_in (a : list float) (v : float) :
  In v (take a (argsort a)) <-> In v a.
Proof.
  split.
  - apply take_in, argsort_indices_valid.
  - intros Hv. destruct (In_nth _ _ NaN Hv) as (i & Hi & <-).
    unfold take. apply in_map_iff. exists i. split; [reflexivity |].
    now apply argsort_in_range.
Qed.

Lemma take_all_finite (a b : list float) :
  length b = length a -> all_finite b -> all_finite (take b (argsort a)).
Proof.
  intros Hlen Hb. unfold all_finite in *.
  rewrite Forall_forall in *. intros v Hv. apply Hb.
  apply take_in in Hv; [exact Hv |].
  rewrite Hlen. apply argsort_indices_valid.
Qed.

Lemma argsort_sorted (a : list float) :
  all_finite a -> StronglySorted le_float (take a (argsort a)).
Proof.
  intros Ha. unfold take, argsort.
  apply sorted_map_key, sort_indices_sorted.
  apply Forall_forall. intros i Hi. apply in_seq in Hi.
  unfold all_finite in Ha. rewrite Forall_forall in Ha.
  apply Ha, nth_In. lia.
Qed.

Lemma argsort_of_sorted (a : list float) :
  StronglySorted le_float a -> argsort a = seq 0 (length a).
Proof.
  intros Hs. unfold argsort.
  apply sort_indices_ascending.
  intros i _ Hi. now apply sorted_adjacent.
Qed.

(** ** The interpolant *)

Lemma getitem_first (a : list float) : a <> [] -> getitem a 0 = Ok (hd NaN a).
Proof. destruct a; [congruence | reflexivity]. Qed.

Lemma getitem_last_ok (a : list float) :
  a <> [] -> getitem_last a = Ok (last a NaN).
Proof.
  intros Ha. destruct a as [| v a]; [congruence |].
  unfold getitem_last, getitem. clear Ha.
  replace (length (v :: a) - 1)%nat with (length a) by (simpl; lia).
  revert v. induction a as [| w a IH]; intros v; [reflexivity |].
  change (nth_error (v :: w :: a) (length (w :: a)))
    with (nth_error (w :: a) (length a)).
  rewrite IH. reflexivity.
Qed.

Lemma interp1d_of_sorted (xs ys : list float) (fill : float * float) :
  StronglySorted le_float xs -> length xs = length ys -> xs <> [] ->
  interp1d xs ys fill = Ok (mk_interp1d xs ys (fst fill) (snd fill)).
Proof.
  intros Hs Hlen Hne. unfold interp1d.
  rewrite (proj2 (Nat.eqb_eq _ _) Hlen). simpl.
  rewrite (argsort_of_sorted xs Hs), take_length, length_seq.
  destruct xs as [| x xs]; [congruence |]. simpl Nat.ltb.
  rewrite take_seq, Hlen, take_seq. reflexivity.
Qed.

Lemma last_default (l : list float) (d d' : float) :
  l <> [] -> last l d = last l d'.
Proof.
  induction l as [| a l IH]; [congruence |]; intros _.
  destruct l as [| b l]; [reflexivity |].
  change (last (b :: l) d = last (b :: l) d'). now apply IH.
Qed.

Lemma sorted_hd_min (l : list float) :
  StronglySorted le_float l -> all_finite l ->
  forall v, In v l -> le_float (hd NaN l) v.
Proof.
  intros Hs Hf v Hv.
  destruct Hs as [| a l Hs Ha]; [contradiction |].
  simpl. destruct Hv as [<- | Hv].
  - inversion Hf; subst. apply leb_refl.
    destruct a; simpl in *; easy.
  - rewrite Forall_forall in Ha. now apply Ha.
Qed.

Lemma sorted_last_max (l : list float) :
  StronglySorted le_float l -> all_finite l ->
  forall v, In v l -> le_float v (last l NaN).
Proof.
  induction 1 as [| a l Hs IH Ha]; intros Hf v Hv; [contradiction |].
  inversion Hf as [| ? ? Haf Hlf]; subst.
  destruct l as [| b l].
  - destruct Hv as [<- | []]. simpl. apply leb_refl.
    destruct a; simpl in *; easy.
  - change (le_float v (last (b :: l) NaN)).
    destruct Hv as [<- | Hv]; [| now apply IH].
    eapply leb_trans; [| apply IH; [exact Hlf | now left]].
    now inversion Ha.
Qed.

Lemma ltb_leb_false (a b c : float) :
  Float.ltb a b = true -> Float.leb b c = true -> Float.ltb c a = false.
Proof.
  destruct a, b, c; simpl; try easy.
  rewrite Rltb_true, Rleb_true, Rltb_false. lra.
Qed.

Lemma last_in (l : list float) : l <> [] -> In (last l NaN) l.
Proof.
  intros Hne. destruct (exists_last Hne) as (l' & z & ->).
  rewrite last_last. apply in_or_app. right. now left.
Qed.

(** Below the table the interpolant answers with its lower fill value. *)
Lemma interp_at_below (f : interp1d_t) (q : float) :
  StronglySorted le_float (ip_x f) -> all_finite (ip_x f) -> ip_x f <> [] ->
  Float.ltb q (hd NaN (ip_x f)) = true -> interp_at f q = ip_below f.
Proof.
  intros Hs Hf Hne Hq. unfold interp_at. rewrite Hq.
  assert (Hle : le_float (hd NaN (ip_x f)) (last (ip_x f) NaN)).
  { apply sorted_hd_min; auto using last_in. }
  now rewrite (ltb_leb_false _ _ _ Hq Hle).
Qed.

(** Above the table it answers with its upper fill value. *)
Lemma interp_at_above (f : interp1d_t) (q : float) :
  Float.ltb (last (ip_x f) NaN) q = true -> interp_at f q = ip_above f.
Proof. intros Hq. unfold interp_at. now rewrite Hq. Qed.

Lemma segment_finite (x0 y0 x1 y1 q : R) :
  x0 <= q -> q < x1 ->
  exists r, segment (Fin x0) (Fin y0) (Fin x1) (Fin y1) (Fin q) = Fin r.
Proof.
  intros H0 H1. unfold segment. simpl.
  destruct (Reqb x0 q); [now eexists |].
  destruct (Reqb (x1 + - x0) 0) eqn:E;
    [apply Reqb_true in E; lra | clear E].
  simpl. now eexists.
Qed.

Lemma interp_scan_step (x0 x1 y0 y1 q : float) (xp fp : list float) :
  interp_scan (x0 :: x1 :: xp) (y0 :: y1 :: fp) q
  = if Float.ltb q x1 then segment x0 y0 x1 y1 q
    else interp_scan (x1 :: xp) (y1 :: fp) q.
Proof. reflexivity. Qed.

Lemma interp_scan_finite (xp : list float) :
  forall fp q,
    all_finite xp -> all_finite fp -> length xp = length fp -> xp <> [] ->
    Float.isfinite q = true -> Float.ltb q (hd NaN xp) = false ->
    Float.isfinite (interp_scan xp fp q) = true.
Proof.
  induction xp as [| x0 xp IH]; intros fp q Hx Hf Hlen Hne Hq Hlo;
    [congruence |].
  destruct fp as [| y0 fp]; [discriminate |].
  inversion Hx as [| ? ? Hx0 Hxp]; inversion Hf as [| ? ? Hy0 Hfp]; subst.
  destruct xp as [| x1 xp]; [exact Hy0 |].
  destruct fp as [| y1 fp]; [discriminate |].
  rewrite interp_scan_step.
  destruct (Float.ltb q x1) eqn:Hq1.
  - inversion Hxp; inversion Hfp; subst.
    destruct (isfinite_inv _ Hx0) as [a0 ->].
    destruct (isfinite_inv _ Hy0) as [b0 ->].
    destruct (isfinite_inv x1) as [a1 ->]; [assumption |].
    destruct (isfinite_inv y1) as [b1 ->]; [assumption |].
    destruct (isfinite_inv _ Hq) as [r ->].
    simpl in Hlo, Hq1. apply Rltb_false in Hlo. apply Rltb_true in Hq1.
    destruct (segment_finite a0 b0 a1 b1 r Hlo Hq1) as [v ->]. reflexivity.
  - apply IH; auto. discriminate.
Qed.

Lemma np_interp_finite (xp fp : list float) (q : float) :
  all_finite xp -> all_finite fp -> length xp = length fp -> xp <> [] ->
  Float.isfinite q = true ->
  Float.isfinite (np_interp xp fp q) = true.
Proof.
  intros Hx Hf Hlen Hne Hq. unfold np_interp.
  destruct q as [r | | |]; try discriminate. cbn [Float.isnan].
  destruct xp as [| x0 xp]; [congruence |].
  destruct fp as [| y0 fp]; [discriminate |].
  assert (Hy0 : Float.isfinite y0 = true) by now inversion Hf.
  assert (Hyl : Float.isfinite (last (y0 :: fp) y0) = true).
  { unfold all_finite in Hf. rewrite Forall_forall in Hf. apply Hf.
    rewrite (last_default _ _ NaN) by discriminate.
    apply last_in. discriminate. }
  repeat match goal with
         | |- Float.isfinite (if ?c then _ else _) = true =>
             let E := fresh "E" in destruct c eqn:E
         end; auto.
  apply interp_scan_finite; auto.
Qed.

Lemma interp_at_finite (f : interp1d_t) (q : float) :
  all_finite (ip_x f) -> all_finite (ip_y f) ->
  length (ip_x f) = length (ip_y f) -> ip_x f <> [] ->
  Float.isfinite (ip_below f) = true -> Float.isfinite (ip_above f) = true ->
  Float.isfinite q = true ->
  Float.isfinite (interp_at f q) = true.
Proof.
  intros Hx Hy Hlen Hne Hb Ha Hq. unfold interp_at.
  destruct (Float.ltb (last (ip_x f) NaN) q); [exact Ha |].
  destruct (Float.ltb q (hd NaN (ip_x f))); [exact Hb |].
  now apply np_interp_finite.
Qed.

Lemma interp_call_finite (f : interp1d_t) (x_new : list float) :
  all_finite (ip_x f) -> all_finite (ip_y f) ->
  length (ip_x f) = length (ip_y f) -> ip_x f <> [] ->
  Float.isfinite (ip_below f) = true -> Float.isfinite (ip_above f) = true ->
  all_finite x_new ->
  all_finite (interp_call f x_new).
Proof.
  intros Hx Hy Hlen Hne Hb Ha Hq. unfold interp_call, all_finite.
  rewrite Forall_map. eapply Forall_impl; [| exact Hq].
  intros q Hfq. now apply interp_at_finite.
Qed.

(** ** The feasible path of [objective] *)

Lemma in_box_finite (theta M X : float) :
  in_box theta M X = true ->
  exists th m x, theta = Fin th /\ M = Fin m /\ X = Fin x.
Proof.
  intros H. apply in_box_spec in H as (Ht & HM & HX).
  destruct theta, M, X; try contradiction. now repeat eexists.
Qed.

(** The predicate "the curve samples are all finite" of line 29. *)
Lemma samples_finite_in_box (t_vals : list float) (theta M X : float) :
  in_box theta M X = true -> all_finite t_vals ->
  all_finite (fst (parametric_curve t_vals theta M X))
  /\ all_finite (snd (parametric_curve t_vals theta M X)).
Proof.
  intros Hbox Ht.
  destruct (in_box_finite _ _ _ Hbox) as (th & m & x & -> & -> & ->).
  now apply parametric_curve_finite.
Qed.

Lemma sorted_table_facts (t_vals : list float) (theta M X : float) :
  all_finite (fst (parametric_curve t_vals theta M X)) ->
  all_finite (snd (parametric_curve t_vals theta M X)) ->
  let xs := fst (sorted_table t_vals theta M X) in
  let ys := snd (sorted_table t_vals theta M X) in
  all_finite xs /\ all_finite ys /\ StronglySorted le_float xs
  /\ length xs = length t_vals /\ length ys = length t_vals.
Proof.
  intros Hfx Hfy.
  destruct (parametric_curve_length t_vals theta M X) as [Hlx Hly].
  unfold sorted_table.
  destruct (parametric_curve t_vals theta M X) as [x_pred y_pred].
  cbn [fst snd] in *.
  repeat split.
  - now apply take_all_finite.
  - apply take_all_finite; [congruence | assumption].
  - now apply argsort_sorted.
  - now rewrite take_length, argsort_length.
  - now rewrite take_length, argsort_length.
Qed.

Lemma fitted_interp_fields (t_vals : list float) (theta M X : float) :
  let f := fitted_interp t_vals theta M X in
  ip_x f = fst (sorted_table t_vals theta M X)
  /\ ip_y f = snd (sorted_table t_vals theta M X)
  /\ ip_below f = hd NaN (snd (sorted_table t_vals theta M X))
  /\ ip_above f = last (snd (sorted_table t_vals theta M X)) NaN.
Proof.
  unfold fitted_interp.
  destruct (sorted_table t_vals theta M X); simpl. auto.
Qed.

Lemma nonempty_length (A : Type) (l : list A) : l <> [] <-> (0 < length l)%nat.
Proof. destruct l; simpl; split; try congruence; try lia. Qed.

(** The [try] block succeeds on the table of a feasible evaluation. *)
Lemma try_interp_feasible (t_vals x_data : list float) (theta M X : float) :
  all_finite (fst (parametric_curve t_vals theta M X)) ->
  all_finite (snd (parametric_curve t_vals theta M X)) ->
  t_vals <> [] ->
  try_interp (fst (sorted_table t_vals theta M X))
             (snd (sorted_table t_vals theta M X)) x_data
  = Ok (interp_call (fitted_interp t_vals theta M X) x_data).
Proof.
  intros Hpx Hpy Hne.
  destruct (sorted_table_facts t_vals theta M X Hpx Hpy)
    as (Hfx & Hfy & Hs & Hlx & Hly).
  unfold fitted_interp.
  destruct (sorted_table t_vals theta M X) as [xs ys]. cbn [fst snd] in *.
  apply nonempty_length in Hne.
  assert (Hxs : xs <> []) by (apply nonempty_length; lia).
  assert (Hys : ys <> []) by (apply nonempty_length; lia).
  unfold try_interp.
  rewrite (getitem_first ys Hys), (getitem_last_ok ys Hys). cbn [bind].
  rewrite interp1d_of_sorted; auto; congruence.
Qed.

Lemma objective_feasible (flag : bool) (theta M X : float)
    (t_vals x_data y_data : list float) :
  in_box theta M X = true ->
  all_finite (fst (parametric_curve t_vals theta M X)) ->
  all_finite (snd (parametric_curve t_vals theta M X)) ->
  t_vals <> [] ->
  objective_flag flag [theta; M; X] t_vals x_data y_data
  = (dy <- np_sub (interp_call (fitted_interp t_vals theta M X) x_data) y_data ;;
     Ok (Float.add (np_sum (map Float.abs dy)) (Float.mul f200 (reg_of M)))).
Proof.
  intros Hbox Hfx Hfy Hne.
  pose proof (try_interp_feasible t_vals x_data theta M X Hfx Hfy Hne) as Htry.
  unfold objective_flag, objective_with. rewrite Hbox. cbn [negb].
  unfold sorted_table in Htry.
  destruct (parametric_curve t_vals theta M X) as [x_pred y_pred].
  cbn [fst snd] in *.
  apply all_finite_forallb in Hfx, Hfy. rewrite Hfx, Hfy. cbn [negb orb].
  rewrite Htry.
  destruct (np_sub _ y_data); cbn [bind]; [| reflexivity].
  now rewrite residual_error_flag.
Qed.

(** The infeasible paths. *)
Lemma objective_non_finite_samples (flag : bool) (theta M X : float)
    (t_vals x_data y_data : list float) :
  ~ (all_finite (fst (parametric_curve t_vals theta M X))
     /\ all_finite (snd (parametric_curve t_vals theta M X))) ->
  objective_flag flag [theta; M; X] t_vals x_data y_data = Ok PInf.
Proof.
  intros Hnf. unfold objective_flag, objective_with.
  destruct (negb (in_box theta M X)); [reflexivity |].
  destruct (parametric_curve t_vals theta M X) as [x_pred y_pred].
  cbn [fst snd] in Hnf.
  destruct (np_all_isfinite x_pred) eqn:Hx;
    destruct (np_all_isfinite y_pred) eqn:Hy; try reflexivity.
  exfalso. apply Hnf. now rewrite !all_finite_forallb.
Qed.

Lemma objective_failed_interp (flag : bool) (theta M X : float)
    (t_vals x_data y_data : list float) (e : exn) :
  try_interp (fst (sorted_table t_vals theta M X))
             (snd (sorted_table t_vals theta M X)) x_data = Raise e ->
  objective_flag flag [theta; M; X] t_vals x_data y_data = Ok PInf.
Proof.
  intros Hraise. unfold objective_flag, objective_with, sorted_table in *.
  destruct (negb (in_box theta M X)); [reflexivity |].
  destruct (parametric_curve t_vals theta M X) as [x_pred y_pred].
  destruct (_ || _); [reflexivity |].
  cbn [fst snd] in Hraise. now rewrite Hraise.
Qed.

Lemma objective_empty_t (flag : bool) (theta M X : float)
    (x_data y_data : list float) :
  objective_flag flag [theta; M; X] [] x_data y_data = Ok PInf.
Proof.
  unfold objective_flag, objective_with. destruct (negb (in_box theta M X)); reflexivity.
Qed.

(** ** The aggregate of the residuals *)

Lemma np_sub_same_length (a b : list float) :
  length a = length b -> np_sub a b = Ok (map2 Float.sub a b).
Proof.
  intros Hlen. unfold np_sub, broadcast2.
  now rewrite (proj2 (Nat.eqb_eq _ _) Hlen).
Qed.

Lemma sum_abs_diff_nonneg (pred : list R) :
  forall obs, 0 <= sum_abs_diff pred obs.
Proof.
  induction pred as [| p pred IH]; intros [| o obs]; simpl; try lra.
  specialize (IH obs). pose proof (Rabs_pos (p - o)). lra.
Qed.

Lemma fold_add_abs_sub (a : list float) :
  forall b acc,
    all_finite a -> all_finite b -> length a = length b ->
    fold_left Float.add (map Float.abs (map2 Float.sub a b)) (Fin acc)
    = Fin (acc + sum_abs_diff (map to_R a) (map to_R b)).
Proof.
  induction a as [| u a IH]; intros [| v b] acc Ha Hb Hlen;
    try discriminate; simpl.
  - f_equal. lra.
  - inversion Ha as [| ? ? Hu Ha']; inversion Hb as [| ? ? Hv Hb']; subst.
    destruct (isfinite_inv _ Hu) as [p ->].
    destruct (isfinite_inv _ Hv) as [o ->].
    simpl. rewrite IH by (auto; simpl in Hlen; lia).
    f_equal. unfold Rminus. lra.
Qed.

Lemma np_sum_abs_sub (a b : list float) :
  all_finite a -> all_finite b -> length a = length b ->
  np_sum (map Float.abs (map2 Float.sub a b))
  = Fin (sum_abs_diff (map to_R a) (map to_R b)).
Proof.
  intros Ha Hb Hlen. unfold np_sum, f0.
  rewrite fold_add_abs_sub by assumption. f_equal. lra.
Qed.

Lemma fitted_interp_finite (t_vals x_data : list float) (theta M X : float) :
  all_finite (fst (parametric_curve t_vals theta M X)) ->
  all_finite (snd (parametric_curve t_vals theta M X)) ->
  t_vals <> [] -> all_finite x_data ->
  all_finite (interp_call (fitted_interp t_vals theta M X) x_data).
Proof.
  intros Hpx Hpy Hne Hq.
  destruct (sorted_table_facts t_vals theta M X Hpx Hpy)
    as (Hfx & Hfy & Hs & Hlx & Hly).
  destruct (fitted_interp_fields t_vals theta M X) as (Ex & Ey & Eb & Ea).
  apply nonempty_length in Hne.
  assert (Hys : snd (sorted_table t_vals theta M X) <> [])
    by (apply nonempty_length; lia).
  assert (Hin : forall v, In v (snd (sorted_table t_vals theta M X)) ->
                         Float.isfinite v = true)
    by (apply Forall_forall; exact Hfy).
  apply interp_call_finite; rewrite ?Ex, ?Ey, ?Eb, ?Ea;
    try assumption.
  - congruence.
  - apply nonempty_length; lia.
  - apply Hin. destruct (snd (sorted_table t_vals theta M X));
      [congruence | now left].
  - apply Hin. now apply last_in.
Qed.

(** On a feasible evaluation with finite observations the objective is the
    sum of the absolute residuals plus the regularisation term, in reals. *)
Lemma objective_finite_value (flag : bool) (theta M X : float)
    (t_vals x_data y_data : list float) :
  in_box theta M X = true ->
  all_finite (fst (parametric_curve t_vals theta M X)) ->
  all_finite (snd (parametric_curve t_vals theta M X)) ->
  t_vals <> [] ->
  all_finite x_data -> all_finite y_data -> length x_data = length y_data ->
  objective_flag flag [theta; M; X] t_vals x_data y_data
  = Ok (Fin (sum_abs_diff
               (map to_R (interp_call (fitted_interp t_vals theta M X) x_data))
               (map to_R y_data)
             + reg_term (to_R M))).
Proof.
  intros Hbox Hpx Hpy Hne Hx Hy Hlen.
  rewrite objective_feasible by assumption.
  pose proof (fitted_interp_finite t_vals x_data theta M X Hpx Hpy Hne Hx)
    as Hfin.
  rewrite np_sub_same_length
    by (unfold interp_call; rewrite length_map; exact Hlen).
  cbn [bind].
  rewrite np_sum_abs_sub; auto;
    [| unfold interp_call; rewrite length_map; exact Hlen].
  destruct (in_box_finite _ _ _ Hbox) as (th & m & x & -> & -> & ->).
  rewrite reg_of_finite. reflexivity.
Qed.

(** ** The claims about [objective] *)

Lemma within_in_box (theta M X : float) :
  within 0 50 theta -> within (- (8 / 100)) (8 / 100) M -> within 0 100 X ->
  in_box theta M X = true.
Proof. intros. now apply in_box_spec. Qed.

Lemma all_finite_dec (a : list float) : all_finite a \/ ~ all_finite a.
Proof.
  rewrite all_finite_forallb.
  destruct (np_all_isfinite a); [now left | right; discriminate].
Qed.



(** C6.  The table that [objective] hands to [interp1d] is the predicted
    points reordered together by a permutation that puts [x_pred] in
    ascending order, so its first entry has the smallest and its last entry
    the largest [x_pred].  Building the interpolant on it does not fail, and
    the interpolant is flat outside the table: a query below the smallest
    [x_pred] gets the [y] of the first entry, a query above the largest gets
    the [y] of the last entry.  This is the interpolant whose values
    [objective] compares with the observations. *)
Theorem interpolant_flat_outside_table (theta M X : float)
    (t_vals : list float) :
  all_finite (fst (parametric_curve t_vals theta M X)) ->
  all_finite (snd (parametric_curve t_vals theta M X)) ->
  t_vals <> [] ->
  let x_pred := fst (parametric_curve t_vals theta M X) in
  let y_pred := snd (parametric_curve t_vals theta M X) in
  let x_sorted := fst (sorted_table t_vals theta M X) in
  let y_sorted := snd (sorted_table t_vals theta M X) in
  let interp := fitted_interp t_vals theta M X in
  (exists idx,
      Permutation (seq 0 (length t_vals)) idx
      /\ x_sorted = take x_pred idx /\ y_sorted = take y_pred idx)
  /\ StronglySorted le_float x_sorted
  /\ (forall v, In v x_pred ->
        le_float (hd NaN x_sorted) v /\ le_float v (last x_sorted NaN))
  /\ (forall x_data,
        try_interp x_sorted y_sorted x_data = Ok (map (interp_at interp) x_data))
  /\ (forall q, Float.ltb q (hd NaN x_sorted) = true ->
        interp_at interp q = hd NaN y_sorted)
  /\ (forall q, Float.ltb (last x_sorted NaN) q = true ->
        interp_at interp q = last y_sorted NaN)
  /\ (forall x_data y_data,
        in_box theta M X = true ->
        objective [theta; M; X] t_vals x_data y_data
        = (dy <- np_sub (map (interp_at interp) x_data) y_data ;;
           Ok (Float.add (np_sum (map Float.abs dy))
                         (Float.mul f200 (reg_of M))))).
Proof.
  intros Hpx Hpy Hne x_pred y_pred x_sorted y_sorted interp.
  destruct (sorted_table_facts t_vals theta M X Hpx Hpy)
    as (Hfx & Hfy & Hs & Hlx & Hly).
  destruct (fitted_interp_fields t_vals theta M X) as (Ex & Ey & Eb & Ea).
  assert (Hxs : x_sorted <> []).
  { apply nonempty_length. apply nonempty_length in Hne.
    unfold x_sorted. lia. }
  assert (Hmem : forall v, In v x_sorted <-> In v x_pred).
  { intros v. unfold x_sorted, x_pred, sorted_table.
    destruct (parametric_curve t_vals theta M X) as [xp yp]. cbn [fst snd].
    apply take_argsort_in. }
  repeat split.
  - exists (argsort x_pred). split; [| split].
    + rewrite <- (proj1 (parametric_curve_length t_vals theta M X)).
      apply argsort_perm.
    + unfold x_sorted, x_pred, sorted_table.
      now destruct (parametric_curve t_vals theta M X).
    + unfold y_sorted, x_pred, y_pred, sorted_table.
      now destruct (parametric_curve t_vals theta M X).
  - exact Hs.
  - apply sorted_hd_min; auto. now apply Hmem.
  - apply sorted_last_max; auto. now apply Hmem.
  - intros x_data. now apply try_interp_feasible.
  - intros q Hq. unfold interp, y_sorted. rewrite <- Eb.
    apply interp_at_below; rewrite Ex; auto.
  - intros q Hq. unfold interp, y_sorted. rewrite <- Ea.
    apply interp_at_above. now rewrite Ex.
  - intros x_data y_data Hbox. now apply objective_feasible.
Qed.

Lemma interpolant_flat_outside_table_witness :
  interp_at (fitted_interp [Fin 6; Fin 60] (Fin 0) (Fin 0) (Fin 50)) PInf
  = last (snd (sorted_table [Fin 6; Fin 60] (Fin 0) (Fin 0) (Fin 50))) NaN.
Proof.
  assert (Hbox : in_box (Fin 0) (Fin 0) (Fin 50) = true)
    by (apply within_in_box; simpl; lra).
  assert (Ht : all_finite [Fin 6; Fin 60]) by repeat constructor.
  destruct (samples_finite_in_box _ _ _ _ Hbox Ht) as [Hx Hy].
  destruct (interpolant_flat_outside_table (Fin 0) (Fin 0) (Fin 50)
              [Fin 6; Fin 60] Hx Hy) as (_ & Hs & _ & _ & _ & Habove & _);
    [discriminate |].
  apply Habove.
  destruct (sorted_table_facts _ _ _ _ Hx Hy) as (Hfx & _ & _ & Hlx & _).
  assert (Hne : fst (sorted_table [Fin 6; Fin 60] (Fin 0) (Fin 0) (Fin 50)) <> [])
    by (apply nonempty_length; rewrite Hlx; simpl; lia).
  pose proof (last_in _ Hne) as Hin.
  unfold all_finite in Hfx. rewrite Forall_forall in Hfx.
  destruct (isfinite_inv _ (Hfx _ Hin)) as [r ->]. reflexivity.
Defined.

(** * Further properties of the script *)

(** ** The curve *)

Lemma clip_value (r : R) :
  Float.clip (Fin r) (Float.neg f30) f30 = Fin (Rmin (Rmax r (- (30))) 30).
Proof.
  unfold Float.clip, Float.maximum, Float.minimum, f30, Rmax, Rmin. simpl.
  destruct (Rle_dec r (- (30))) as [H1 | H1].
  - rewrite (proj2 (Rleb_true _ _) H1). simpl.
    destruct (Rle_dec (- (30)) 30) as [H2 | H2]; [| lra].
    now rewrite (proj2 (Rleb_true _ _) H2).
  - rewrite (proj2 (Rleb_false _ _)) by lra. simpl.
    destruct (Rle_dec r 30) as [H2 | H2].
    + now rewrite (proj2 (Rleb_true _ _) H2).
    + now rewrite (proj2 (Rleb_false _ _)) by lra.
Qed.

Lemma exp_term_value (t m : R) :
  exp_term_of (Fin t) (Fin m)
  = Fin (exp (Rmin (Rmax (m * Rabs t) (- (30))) 30)).
Proof.
  unfold exp_term_of.
  change (Float.mul (Fin m) (Float.abs (Fin t))) with (Fin (m * Rabs t)).
  now rewrite clip_value.
Qed.

Lemma curve_point_value (t th m x : R) :
  curve_point (Fin t) (Fin th) (Fin m) (Fin x)
  = (let e := exp (Rmin (Rmax (m * Rabs t) (- (30))) 30) in
     let a := th * (PI / 180) in
     (Fin (t * cos a + - (e * sin (3 / 10 * t) * sin a) + x),
      Fin (42 + t * sin a + e * sin (3 / 10 * t) * cos a))).
Proof.
  unfold curve_point. fold (exp_term_of (Fin t) (Fin m)).
  rewrite exp_term_value. reflexivity.
Qed.

Lemma exp_le (a b : R) : a <= b -> exp a <= exp b.
Proof.
  intros [Hlt | ->]; [left; now apply exp_increasing | right; reflexivity].
Qed.

Lemma abs_le_inv (a b : R) : Rabs a <= b -> - b <= a <= b.
Proof.
  intros H. pose proof (Rle_abs a) as H1. pose proof (Rle_abs (- a)) as H2.
  rewrite Rabs_Ropp in H2. lra.
Qed.

(** Where [|M t| <= 30] the clamp of line 18 leaves the exponent as it is. *)
Lemma curve_point_unclamped (t th m x : R) :
  Rabs m <= 8 / 100 -> Rabs t <= 375 ->
  curve_point (Fin t) (Fin th) (Fin m) (Fin x)
  = (Fin (t * cos (th * (PI / 180))
          - exp (m * Rabs t) * sin (3 / 10 * t) * sin (th * (PI / 180)) + x),
     Fin (42 + t * sin (th * (PI / 180))
          + exp (m * Rabs t) * sin (3 / 10 * t) * cos (th * (PI / 180)))).
Proof.
  intros Hm Ht.
  rewrite curve_point_value. cbv zeta.
  assert (Hprod : Rabs (m * Rabs t) <= 30).
  { rewrite Rabs_mult, Rabs_Rabsolu.
    pose proof (Rabs_pos m). pose proof (Rabs_pos t).
    replace 30 with (8 / 100 * 375) by lra.
    apply Rmult_le_compat; assumption. }
  apply abs_le_inv in Hprod.
  rewrite Rmax_left by lra. rewrite Rmin_left by lra.
  reflexivity.
Qed.

(** X1.  For every [M] of the box and every [|t| <= 375], hence on the whole
    domain [[6, 60]], the clamp of line 18 is inactive ([|M t| <= 30]) and the
    sample is the closed form that the script prints (lines 107-109), with
    [e^(M |t|)] as it stands. *)
Theorem curve_closed_form (t th m x : R) :
  Rabs m <= 8 / 100 -> Rabs t <= 375 ->
  curve_point (Fin t) (Fin th) (Fin m) (Fin x)
  = (Fin (t * cos (th * (PI / 180))
          - exp (m * Rabs t) * sin (3 / 10 * t) * sin (th * (PI / 180)) + x),
     Fin (42 + t * sin (th * (PI / 180))
          + exp (m * Rabs t) * sin (3 / 10 * t) * cos (th * (PI / 180)))).
Proof. apply curve_point_unclamped. Qed.

Lemma curve_closed_form_witness :
  snd (curve_point (Fin 60) (Fin 25) (Fin (15 / 1000)) (Fin 50))
  = Fin (42 + 60 * sin (25 * (PI / 180))
         + exp (15 / 1000 * Rabs 60) * sin (3 / 10 * 60)
           * cos (25 * (PI / 180))).
Proof.
  rewrite (curve_closed_form 60 25 (15 / 1000) 50).
  - reflexivity.
  - rewrite Rabs_pos_eq; lra.
  - rewrite Rabs_pos_eq; lra.
Defined.

(** X3.  At [t = 0] the sample has [x = X], for all finite [theta], [M] and
    [X]: the offset [X] is where the curve starts. *)
Theorem curve_x_at_zero (th m x : R) :
  fst (parametric_curve [f0] (Fin th) (Fin m) (Fin x)) = [Fin x].
Proof.
  unfold parametric_curve, f0. cbn [map fst].
  rewrite curve_point_value. cbv zeta. cbn [fst].
  rewrite Rmult_0_r, sin_0. do 2 f_equal. ring.
Qed.

(** X4.  For [M] of the box and [|t| <= 375] a sample is the point
    [(t, e^(M|t|) sin(0.3 t))] turned by the angle [theta] and moved to
    [(X, 42)]: its squared distance from [(X, 42)] does not depend on [theta]
    or [X]. *)
Theorem curve_distance_from_origin (t th m x : R) :
  Rabs m <= 8 / 100 -> Rabs t <= 375 ->
  let p := curve_point (Fin t) (Fin th) (Fin m) (Fin x) in
  (to_R (fst p) - x) ^ 2 + (to_R (snd p) - 42) ^ 2
  = t ^ 2 + (exp (m * Rabs t) * sin (3 / 10 * t)) ^ 2.
Proof.
  intros Hm Ht p. unfold p.
  rewrite (curve_point_unclamped t th m x Hm Ht). cbn [fst snd to_R].
  set (a := th * (PI / 180)).
  set (b := exp (m * Rabs t) * sin (3 / 10 * t)).
  replace ((t * cos a - b * sin a + x - x) ^ 2
           + (42 + t * sin a + b * cos a - 42) ^ 2)
    with ((t ^ 2 + b ^ 2) * ((sin a)² + (cos a)²))
    by (unfold Rsqr; ring).
  rewrite sin2_cos2. ring.
Qed.

Lemma curve_distance_from_origin_witness :
  let p := curve_point (Fin 6) (Fin 25) (Fin (15 / 1000)) (Fin 50) in
  (to_R (fst p) - 50) ^ 2 + (to_R (snd p) - 42) ^ 2
  = 6 ^ 2 + (exp (15 / 1000 * Rabs 6) * sin (3 / 10 * 6)) ^ 2.
Proof.
  apply (curve_distance_from_origin 6 25 (15 / 1000) 50);
    rewrite Rabs_pos_eq; lra.
Defined.

(** A sample parameter that is not finite gives a [nan] abscissa. *)
Lemma curve_point_not_finite (t theta M X : float) :
  Float.isfinite t = false -> fst (curve_point t theta M X) = NaN.
Proof.
  intros Ht. unfold curve_point. cbn [fst].
  assert (Hs : Float.sin (Float.mul f0_3 t) = NaN).
  { destruct t; try discriminate; try reflexivity; unfold f0_3; simpl;
      unfold Float.mul_inf;
      (destruct (Reqb (3 / 10) 0) eqn:E; [apply Reqb_true in E; lra |]);
      destruct (Rltb 0 (3 / 10)); reflexivity. }
  rewrite Hs.
  destruct (Float.exp _), (Float.sin (Float.deg2rad theta)),
    (Float.mul t (Float.cos (Float.deg2rad theta))), X; reflexivity.
Qed.

(** X5.  If some entry of [t_vals] is not finite, [objective] returns [+inf]
    for every three parameters and all observations: inside the box by the
    finiteness test of line 29, outside by the guard. *)
Theorem objective_non_finite_t (theta M X t : float)
    (t_vals x_data y_data : list float) :
  In t t_vals -> Float.isfinite t = false ->
  objective [theta; M; X] t_vals x_data y_data = Ok PInf.
Proof.
  intros Hin Ht. unfold objective.
  apply objective_non_finite_samples. intros [Hx _].
  unfold parametric_curve, all_finite in Hx. cbn [fst] in Hx.
  rewrite Forall_map, Forall_forall in Hx.
  specialize (Hx t Hin). now rewrite curve_point_not_finite in Hx.
Qed.

Lemma objective_non_finite_t_witness :
  objective [Fin 25; Fin 0; Fin 50] [Fin 6; PInf] [Fin 55] [Fin 45] = Ok PInf.
Proof.
  apply (objective_non_finite_t (Fin 25) (Fin 0) (Fin 50) PInf);
    [right; now left | reflexivity].
Defined.

(** ** Edge cases of [objective] *)

(** X6.  With an empty [t_vals] the objective is [+inf] for every three
    parameters and all observations: inside the box the table is empty,
    [y_sorted[0]] raises [IndexError] inside the [try] block, and the handler
    turns it into [+inf]. *)
Theorem objective_empty_t_vals (theta M X : float) (x_data y_data : list float) :
  objective [theta; M; X] [] x_data y_data = Ok PInf
  /\ try_interp (fst (sorted_table [] theta M X))
                (snd (sorted_table [] theta M X)) x_data = Raise IndexError.
Proof.
  split; [apply objective_empty_t | reflexivity].
Qed.

Lemma interp_call_length (f : interp1d_t) (x_new : list float) :
  length (interp_call f x_new) = length x_new.
Proof. apply length_map. Qed.

(** X7.  The subtraction of line 40 is outside the [try] block: on a feasible
    evaluation, observation arrays whose lengths differ (neither being one, so
    that NumPy cannot broadcast them) make [objective] raise [ValueError]
    instead of returning a value. *)
Theorem objective_length_mismatch (theta M X : float)
    (t_vals x_data y_data : list float) :
  within 0 50 theta -> within (- (8 / 100)) (8 / 100) M -> within 0 100 X ->
  all_finite t_vals -> t_vals <> [] ->
  length x_data <> length y_data ->
  length x_data <> 1%nat -> length y_data <> 1%nat ->
  objective [theta; M; X] t_vals x_data y_data = Raise ValueError.
Proof.
  intros Ht HM HX Hfin Hne Hlen Hx1 Hy1.
  pose proof (within_in_box _ _ _ Ht HM HX) as Hbox.
  destruct (samples_finite_in_box t_vals theta M X Hbox Hfin) as [Hpx Hpy].
  unfold objective. rewrite objective_feasible by assumption.
  unfold np_sub, broadcast2. rewrite interp_call_length.
  rewrite (proj2 (Nat.eqb_neq _ _) Hlen), (proj2 (Nat.eqb_neq _ _) Hx1),
    (proj2 (Nat.eqb_neq _ _) Hy1).
  reflexivity.
Qed.

Lemma objective_length_mismatch_witness :
  objective [Fin 25; Fin 0; Fin 50] [Fin 6; Fin 60]
            [Fin 55; Fin 60; Fin 70] [Fin 45; Fin 50] = Raise ValueError.
Proof.
  apply objective_length_mismatch; try (simpl; lra); try discriminate.
  repeat constructor.
Defined.

Lemma add_nan_r (a : float) : Float.add a NaN = NaN.
Proof. destruct a; reflexivity. Qed.

Lemma fold_add_nan (l : list float) : fold_left Float.add l NaN = NaN.
Proof. induction l as [| v l IH]; simpl; auto. Qed.

Lemma np_sum_nan (l : list float) : In NaN l -> np_sum l = NaN.
Proof.
  unfold np_sum. generalize f0.
  induction l as [| v l IH]; intros acc Hin; [contradiction |].
  destruct Hin as [-> | Hin]; simpl.
  - rewrite add_nan_r. apply fold_add_nan.
  - now apply IH.
Qed.

Lemma interp_at_nan (f : interp1d_t) :
  (2 <= length (ip_x f))%nat -> length (ip_x f) = length (ip_y f) ->
  interp_at f NaN = NaN.
Proof.
  intros H2 Hlen. unfold interp_at, np_interp.
  destruct (ip_x f) as [| x0 [| x1 xs]]; simpl in H2; try lia.
  destruct (ip_y f) as [| y0 ys]; [discriminate |].
  change (length (x0 :: x1 :: xs) =? 1)%nat with false. cbv iota.
  cbn [Float.isnan hd].
  destruct (last (x0 :: x1 :: xs) NaN), x0; reflexivity.
Qed.

Lemma abs_sub_nan (a : list float) :
  forall b, length a = length b -> In NaN a \/ In NaN b ->
            In NaN (map Float.abs (map2 Float.sub a b)).
Proof.
  induction a as [| u a IH]; intros [| v b] Hlen Hin; try discriminate.
  - destruct Hin as [[] | []].
  - simpl.
    destruct Hin as [[-> | Hin] | [-> | Hin]].
    + now left.
    + right. apply IH; [simpl in Hlen; lia | now left].
    + left. unfold Float.sub. simpl. now rewrite add_nan_r.
    + right. apply IH; [simpl in Hlen; lia | now right].
Qed.

(** X8.  A [nan] among the observations is not signalled as [+inf]: on a
    feasible evaluation the objective returns [nan] if [y_data] holds a [nan],
    or if [x_data] holds one and the table has two entries or more.  (On a
    table of one entry [np.interp] answers a [nan] query with the table's
    [y].) *)
Theorem objective_nan_observation (theta M X : float)
    (t_vals x_data y_data : list float) :
  within 0 50 theta -> within (- (8 / 100)) (8 / 100) M -> within 0 100 X ->
  all_finite t_vals -> t_vals <> [] ->
  length x_data = length y_data ->
  (In NaN x_data /\ (2 <= length t_vals)%nat) \/ In NaN y_data ->
  objective [theta; M; X] t_vals x_data y_data = Ok NaN.
Proof.
  intros Ht HM HX Hfin Hne Hlen Hnan.
  pose proof (within_in_box _ _ _ Ht HM HX) as Hbox.
  destruct (samples_finite_in_box t_vals theta M X Hbox Hfin) as [Hpx Hpy].
  unfold objective. rewrite objective_feasible by assumption.
  rewrite np_sub_same_length by (now rewrite interp_call_length).
  cbn [bind]. rewrite np_sum_nan; [reflexivity |].
  apply abs_sub_nan; [now rewrite interp_call_length |].
  destruct Hnan as [[Hx H2] | Hy]; [left | now right].
  unfold interp_call. apply in_map_iff. exists NaN.
  split; [| exact Hx].
  destruct (sorted_table_facts t_vals theta M X Hpx Hpy)
    as (_ & _ & _ & Hlx & Hly).
  destruct (fitted_interp_fields t_vals theta M X) as (Ex & Ey & _ & _).
  apply interp_at_nan; rewrite Ex, ?Ey; lia.
Qed.

Lemma objective_nan_observation_witness :
  objective [Fin 25; Fin 0; Fin 50] [Fin 6; Fin 60]
            [NaN; Fin 60] [Fin 45; Fin 50] = Ok NaN.
Proof.
  apply objective_nan_observation; try (simpl; lra); try discriminate;
    try reflexivity.
  - repeat constructor.
  - left. split; [now left | simpl; lia].
Defined.

(** On a table of one entry a [nan] query is answered with the entry's [y]. *)
Lemma interp_at_nan_single (x0 y0 below above : float) :
  interp_at (mk_interp1d [x0] [y0] below above) NaN = y0.
Proof.
  unfold interp_at, np_interp. simpl. destruct x0; reflexivity.
Qed.

(** ** Observations that lie on the samples *)

Lemma ltb_asym (a b : float) : Float.ltb a b = true -> Float.ltb b a = false.
Proof.
  destruct a, b; simpl; try easy.
  rewrite Rltb_true, Rltb_false. lra.
Qed.

Lemma leb_ltb_false (a b : float) :
  Float.leb a b = true -> Float.ltb b a = false.
Proof.
  destruct a, b; simpl; try easy.
  rewrite Rleb_true, Rltb_false. lra.
Qed.

Lemma eqb_refl_finite (a : float) :
  Float.isfinite a = true -> Float.eqb a a = true.
Proof. destruct a; try discriminate. intros _. now apply Reqb_true. Qed.

Lemma lt_sorted_le (l : list float) :
  StronglySorted lt_float l -> StronglySorted le_float l.
Proof.
  induction 1 as [| a l Hs IH Ha]; constructor; auto.
  eapply Forall_impl; [| exact Ha]. intros b. apply ltb_leb.
Qed.

(** Scanning a strictly ascending table for one of its own abscissae stops at
    that entry. *)
Lemma interp_scan_node (pre : list float) :
  forall prey x y rest resty,
    length pre = length prey -> length rest = length resty ->
    StronglySorted lt_float (pre ++ x :: rest) ->
    Float.isfinite x = true ->
    interp_scan (pre ++ x :: rest) (prey ++ y :: resty) x = y.
Proof.
  induction pre as [| p pre IH]; intros [| py prey] x y rest resty Hlp Hlr Hs Hx;
    try discriminate.
  - simpl app. destruct rest as [| x1 rest], resty as [| y1 resty];
      try discriminate; [reflexivity |].
    rewrite interp_scan_step.
    inversion Hs as [| ? ? _ Hall]; subst.
    inversion Hall as [| ? ? Hlt _]; subst.
    rewrite Hlt. unfold segment. now rewrite eqb_refl_finite.
  - inversion Hs as [| ? ? Hs' Hall]; subst.
    specialize (IH prey x y rest resty).
    destruct pre as [| p1 pre], prey as [| py1 prey]; try discriminate.
    + simpl app in *. rewrite interp_scan_step, ltb_irrefl.
      now apply IH.
    + simpl app in *. rewrite interp_scan_step.
      assert (Hlt : Float.ltb p1 x = true).
      { inversion Hs' as [| ? ? _ Hall1]; subst.
        rewrite Forall_forall in Hall1. apply Hall1.
        apply in_or_app. right. now left. }
      rewrite (ltb_asym _ _ Hlt).
      apply IH; auto.
Qed.

Lemma interp_at_node (f : interp1d_t) (pre prey rest resty : list float)
    (x y : float) :
  ip_x f = pre ++ x :: rest -> ip_y f = prey ++ y :: resty ->
  length pre = length prey -> length rest = length resty ->
  StronglySorted lt_float (ip_x f) -> all_finite (ip_x f) ->
  interp_at f x = y.
Proof.
  intros Ex Ey Hlp Hlr Hs Hf.
  assert (Hin : In x (ip_x f))
    by (rewrite Ex; apply in_or_app; right; now left).
  assert (Hx : Float.isfinite x = true)
    by (unfold all_finite in Hf; rewrite Forall_forall in Hf; auto).
  assert (Hne : ip_x f <> []) by (rewrite Ex; now destruct pre).
  pose proof (sorted_hd_min _ (lt_sorted_le _ Hs) Hf x Hin) as Hlo.
  pose proof (sorted_last_max _ (lt_sorted_le _ Hs) Hf x Hin) as Hhi.
  apply leb_ltb_false in Hlo, Hhi.
  unfold interp_at. rewrite Hlo, Hhi.
  unfold np_interp.
  destruct x as [r | | |]; try discriminate. cbn [Float.isnan].
  destruct (ip_x f) as [| x0 xs] eqn:Exs; [congruence |].
  destruct (ip_y f) as [| y0 ys] eqn:Eys; [now destruct prey |].
  rewrite (last_default (x0 :: xs) x0 NaN) by discriminate.
  cbn [hd] in Hlo. rewrite Hlo, Hhi.
  destruct (length (x0 :: xs) =? 1)%nat eqn:Hlen.
  - apply Nat.eqb_eq in Hlen.
    destruct pre as [| p pre].
    + destruct prey; [| discriminate].
      injection Ex as -> _. injection Ey as -> _.
      now rewrite ltb_irrefl.
    + rewrite Ex in Hlen. simpl in Hlen. rewrite length_app in Hlen.
      simpl in Hlen. lia.
  - rewrite Ex, Ey. apply interp_scan_node; auto.
    now rewrite <- Ex.
Qed.

Lemma interp_call_nodes (f : interp1d_t) :
  StronglySorted lt_float (ip_x f) -> all_finite (ip_x f) ->
  forall sufx sufy pre prey,
    ip_x f = pre ++ sufx -> ip_y f = prey ++ sufy ->
    length pre = length prey -> length sufx = length sufy ->
    map (interp_at f) sufx = sufy.
Proof.
  intros Hs Hf.
  induction sufx as [| x sufx IH]; intros [| y sufy] pre prey Ex Ey Hlp Hls;
    try discriminate; [reflexivity |].
  simpl. f_equal.
  - apply (interp_at_node f pre prey sufx sufy); auto.
  - apply (IH sufy (pre ++ [x]) (prey ++ [y])).
    + now rewrite <- app_assoc.
    + now rewrite <- app_assoc.
    + rewrite !length_app. simpl. lia.
    + simpl in Hls. lia.
Qed.

Lemma sum_abs_diff_same (l : list R) : sum_abs_diff l l = 0.
Proof.
  induction l as [| a l IH]; simpl; [reflexivity |].
  rewrite IH. replace (a - a) with 0 by ring. rewrite Rabs_R0. ring.
Qed.

Lemma sorted_table_of_ascending (t_vals : list float) (theta M X : float) :
  StronglySorted le_float (fst (parametric_curve t_vals theta M X)) ->
  sorted_table t_vals theta M X = parametric_curve t_vals theta M X.
Proof.
  intros Hs. unfold sorted_table.
  destruct (parametric_curve_length t_vals theta M X) as [Hlx Hly].
  destruct (parametric_curve t_vals theta M X) as [x_pred y_pred].
  cbn [fst snd] in *.
  rewrite (argsort_of_sorted _ Hs), take_seq.
  rewrite Hlx, <- Hly, take_seq. reflexivity.
Qed.

(** X10.  When the abscissae of the samples ascend strictly and the
    observations are the samples themselves, every residual is zero and the
    objective is the regularisation term alone: the interpolant passes through
    the points of its table. *)
Theorem objective_on_own_samples (theta X : float) (m : R)
    (t_vals : list float) :
  within 0 50 theta -> - (8 / 100) <= m <= 8 / 100 -> within 0 100 X ->
  all_finite t_vals -> t_vals <> [] ->
  StronglySorted lt_float (fst (parametric_curve t_vals theta (Fin m) X)) ->
  objective [theta; Fin m; X] t_vals
            (fst (parametric_curve t_vals theta (Fin m) X))
            (snd (parametric_curve t_vals theta (Fin m) X))
  = Ok (Fin (reg_term m)).
Proof.
  intros Ht HM HX Hfin Hne Hasc.
  assert (Hbox : in_box theta (Fin m) X = true) by now apply within_in_box.
  destruct (samples_finite_in_box t_vals theta (Fin m) X Hbox Hfin)
    as [Hpx Hpy].
  destruct (parametric_curve_length t_vals theta (Fin m) X) as [Hlx Hly].
  destruct (fitted_interp_fields t_vals theta (Fin m) X) as (Ex & Ey & _ & _).
  rewrite (sorted_table_of_ascending _ _ _ _ (lt_sorted_le _ Hasc)) in Ex, Ey.
  unfold objective.
  rewrite objective_finite_value; auto; [| congruence].
  unfold interp_call.
  rewrite (interp_call_nodes (fitted_interp t_vals theta (Fin m) X))
    with (sufy := snd (parametric_curve t_vals theta (Fin m) X))
         (pre := []) (prey := []);
    try (rewrite ?Ex, ?Ey; auto; congruence).
  rewrite sum_abs_diff_same. cbn [to_R]. do 2 f_equal. ring.
Qed.

Lemma objective_on_own_samples_witness :
  objective [Fin 0; Fin (15 / 1000); Fin 50] [Fin 6; Fin 60]
    (fst (parametric_curve [Fin 6; Fin 60] (Fin 0) (Fin (15 / 1000)) (Fin 50)))
    (snd (parametric_curve [Fin 6; Fin 60] (Fin 0) (Fin (15 / 1000)) (Fin 50)))
  = Ok (Fin (reg_term (15 / 1000))).
Proof.
  apply objective_on_own_samples; try (simpl; lra); try discriminate.
  - repeat constructor.
  - unfold parametric_curve. cbn [map fst].
    rewrite !curve_point_value. cbv zeta. cbn [fst].
    rewrite Rmult_0_l, sin_0, cos_0.
    repeat constructor. unfold lt_float. simpl. apply Rltb_true. lra.
Defined.

(** ** The sample parameters of the script *)

Lemma linspace_closed_form (a b : R) (n : nat) :
  (2 <= n)%nat ->
  linspace (Fin a) (Fin b) n = map (fun i => Fin (even_spacing a b n i)) (seq 0 n).
Proof.
  intros Hn. unfold linspace.
  destruct n as [| [| k]]; try lia.
  replace (S (S k) - 1)%nat with (S k) by lia.
  change (0 <? S k)%nat with true. change (1 <? S (S k))%nat with true.
  cbv iota. rewrite !map_map.
  assert (Hk : INR (S k) <> 0) by (apply not_0_INR; lia).
  rewrite (seq_S (S k) 0), !map_app. cbn [map].
  rewrite removelast_last. f_equal.
  - apply map_ext. intros i. unfold even_spacing. simpl Float.sub.
    unfold Float.div. rewrite (proj2 (Reqb_false _ _) Hk).
    replace (S (S k) - 1)%nat with (S k) by lia.
    simpl. f_equal. unfold Rminus. ring.
  - unfold even_spacing. replace (S (S k) - 1)%nat with (S k) by lia.
    simpl plus. do 2 f_equal. field. exact Hk.
Qed.

Lemma even_spacing_increasing (a b : R) (n i j : nat) :
  a < b -> (2 <= n)%nat -> (i < j)%nat ->
  even_spacing a b n i < even_spacing a b n j.
Proof.
  intros Hab Hn Hij. unfold even_spacing.
  assert (Hd : 0 < INR (n - 1)) by (apply lt_0_INR; lia).
  assert (Hc : 0 < (b - a) / INR (n - 1))
    by (apply Rdiv_lt_0_compat; lra).
  apply lt_INR in Hij. nra.
Qed.

Lemma even_spacing_range (a b : R) (n i : nat) :
  a <= b -> (2 <= n)%nat -> (i < n)%nat ->
  a <= even_spacing a b n i <= b.
Proof.
  intros Hab Hn Hi. unfold even_spacing.
  assert (Hd : 0 < INR (n - 1)) by (apply lt_0_INR; lia).
  assert (Hi' : INR i <= INR (n - 1)) by (apply le_INR; lia).
  pose proof (pos_INR i) as Hi0.
  assert (Hq : 0 <= INR i / INR (n - 1) <= 1).
  { split.
    - apply Rmult_le_pos; [exact Hi0 |]. left. now apply Rinv_0_lt_compat.
    - apply (Rmult_le_reg_r (INR (n - 1))); [exact Hd |].
      unfold Rdiv. rewrite Rmult_assoc, Rinv_l by lra. lra. }
  replace (INR i * ((b - a) / INR (n - 1)))
    with ((b - a) * (INR i / INR (n - 1))) by (field; lra).
  nra.
Qed.

Lemma spacing_sorted (g : nat -> R) (n : nat) :
  (forall i j, (i < j)%nat -> g i < g j) ->
  forall s, StronglySorted lt_float (map (fun i => Fin (g i)) (seq s n)).
Proof.
  intros Hg. induction n as [| n IH]; intros s; simpl; constructor.
  - apply IH.
  - rewrite Forall_map. apply Forall_forall. intros j Hj.
    apply in_seq in Hj. unfold lt_float. simpl.
    apply Rltb_true, Hg. lia.
Qed.

Lemma pipeline_t_vals_closed (x_data : list float) :
  (2 <= length x_data)%nat ->
  exists l, pipeline_t_vals x_data = map Fin l /\ length l = length x_data.
Proof.
  intros Hn. unfold pipeline_t_vals, T_MIN, T_MAX.
  rewrite (linspace_closed_form 6 60 _ Hn).
  exists (map (even_spacing 6 60 (length x_data)) (seq 0 (length x_data))).
  split; [now rewrite map_map | now rewrite length_map, length_seq].
Qed.

(** X11.  For two or more observations, [t_vals] of lines 53-54 has one
    entry per observation, starts at [T_MIN = 6], ends at [T_MAX = 60], ascends
    strictly, and all its entries are finite values of [[6, 60]]. *)
Theorem pipeline_t_vals_spec (x_data : list float) :
  (2 <= length x_data)%nat ->
  let t_vals := pipeline_t_vals x_data in
  length t_vals = length x_data
  /\ hd NaN t_vals = Fin 6
  /\ last t_vals NaN = Fin 60
  /\ StronglySorted lt_float t_vals
  /\ Forall (within 6 60) t_vals.
Proof.
  intros Hn t_vals. unfold t_vals, pipeline_t_vals, T_MIN, T_MAX.
  rewrite (linspace_closed_form 6 60 _ Hn).
  set (n := length x_data) in *.
  repeat split.
  - now rewrite length_map, length_seq.
  - destruct n as [| n]; [lia |]. simpl. f_equal.
    unfold even_spacing. simpl INR. ring.
  - destruct n as [| n]; [lia |].
    rewrite seq_S, map_app. cbn [map]. rewrite last_last.
    f_equal. unfold even_spacing.
    replace (S n - 1)%nat with n by lia. simpl plus.
    field. apply not_0_INR. lia.
  - apply spacing_sorted. intros i j Hij.
    apply even_spacing_increasing; [lra | exact Hn | exact Hij].
  - rewrite Forall_map. apply Forall_forall. intros i Hi.
    apply in_seq in Hi. simpl.
    apply even_spacing_range; [lra | exact Hn | lia].
Qed.

Lemma pipeline_t_vals_spec_witness :
  last (pipeline_t_vals [Fin 55; Fin 70; Fin 100]) NaN = Fin 60.
Proof.
  apply (pipeline_t_vals_spec [Fin 55; Fin 70; Fin 100]). simpl. lia.
Defined.

Lemma pipeline_t_vals_finite (x_data : list float) :
  all_finite (pipeline_t_vals x_data)
  /\ length (pipeline_t_vals x_data) = length x_data.
Proof.
  destruct (le_lt_dec 2 (length x_data)) as [Hn | Hn].
  - destruct (pipeline_t_vals_closed x_data Hn) as [l [-> Hl]].
    split; [apply all_finite_map_Fin | now rewrite length_map].
  - unfold pipeline_t_vals, linspace.
    destruct (length x_data) as [| [| n]]; try lia; simpl.
    + split; [constructor | reflexivity].
    + split; [repeat constructor | reflexivity].
Qed.

(** ** The progress callback *)

Section Callback.

Variable f : list float -> result float.

Lemma callbacks_app (xs ys : list (list float)) :
  forall log,
    callbacks f (xs ++ ys) log
    = (log' <- callbacks f xs log ;; callbacks f ys log').
Proof.
  induction xs as [| xk xs IH]; intros log; simpl; [reflexivity |].
  destruct (log_progress f log xk); simpl; [apply IH | reflexivity].
Qed.

Lemma log_progress_logged (xs : list (list float)) (log : progress_log)
    (xk : list float) (v : float) :
  logged f xs log -> f xk = Ok v ->
  exists log', log_progress f log xk = Ok log' /\ logged f (xs ++ [xk]) log'.
Proof.
  intros (Hp & Hv & Hs & Hn) Hf.
  unfold log_progress. rewrite Hf. cbn [bind].
  rewrite length_app, Hp. cbn [length].
  set (n := length xs) in *.
  assert (Hvals : forall i, (i < n + 1)%nat ->
            f (nth i (xs ++ [xk]) []) = Ok (nth i (progress log ++ [v]) NaN)).
  { intros i Hi. destruct (Nat.lt_ge_cases i n) as [Hlt | Hge].
    - rewrite !app_nth1 by (fold n; lia). now apply Hv.
    - assert (i = n) by lia. subst i.
      rewrite (app_nth2 xs), (app_nth2 (progress log)) by (fold n; lia).
      fold n. rewrite Hp, Nat.sub_diag. exact Hf. }
  destruct ((n + 1) mod 10 =? 0)%nat eqn:Hmod.
  - apply Nat.eqb_eq in Hmod.
    assert (Hdiv : ((n + 1) / 10 = n / 10 + 1)%nat /\ (n = 10 * (n / 10) + 9)%nat).
    { pose proof (Nat.div_mod_eq (n + 1) 10). pose proof (Nat.div_mod_eq n 10).
      pose proof (Nat.mod_upper_bound n 10 ltac:(lia)). lia. }
    destruct Hdiv as [Hdiv Hrem].
    eexists. split; [reflexivity |]. unfold logged. cbn [progress snapshots].
    rewrite !length_app. cbn [length]. fold n. rewrite Hp, Hs, Hdiv.
    repeat split; auto.
    intros j Hj. destruct (Nat.lt_ge_cases j (n / 10)) as [Hlt | Hge].
    + rewrite !app_nth1 by (fold n; lia). now apply Hn.
    + assert (j = (n / 10)%nat) by lia. subst j.
      rewrite (app_nth2 (snapshots log)) by lia.
      rewrite Hs, Nat.sub_diag. rewrite <- Hrem.
      rewrite app_nth2 by (fold n; lia). fold n.
      now rewrite Nat.sub_diag.
  - apply Nat.eqb_neq in Hmod.
    assert (Hdiv : ((n + 1) / 10 = n / 10)%nat).
    { pose proof (Nat.div_mod_eq (n + 1) 10). pose proof (Nat.div_mod_eq n 10).
      pose proof (Nat.mod_upper_bound n 10 ltac:(lia)).
      pose proof (Nat.mod_upper_bound (n + 1) 10 ltac:(lia)). lia. }
    eexists. split; [reflexivity |]. unfold logged. cbn [progress snapshots].
    rewrite !length_app. cbn [length]. fold n. rewrite Hp, Hs, Hdiv.
    repeat split; auto.
    intros j Hj.
    assert (10 * j + 9 < n)%nat.
    { pose proof (Nat.div_mod_eq n 10). lia. }
    rewrite app_nth1 by (fold n; lia). now apply Hn.
Qed.

Lemma callbacks_log_every_tenth_aux (xs : list (list float)) :
  (forall xk, In xk xs -> exists v, f xk = Ok v) ->
  exists log, callbacks f xs empty_log = Ok log /\ logged f xs log.
Proof.
  induction xs as [| xk xs IH] using rev_ind; intros Hall.
  - exists empty_log. split; [reflexivity |].
    unfold logged. simpl. repeat split; auto; intros; lia.
  - destruct IH as (log & Hlog & Hinv).
    { intros x Hx. apply Hall, in_or_app. now left. }
    destruct (Hall xk) as [v Hv]; [apply in_or_app; right; now left |].
    destruct (log_progress_logged xs log xk v Hinv Hv) as (log' & Hstep & Hinv').
    exists log'. split; [| exact Hinv'].
    rewrite callbacks_app, Hlog. cbn [bind callbacks]. now rewrite Hstep.
Qed.

(** X14.  If the objective returns on every iterate that a restart reports,
    then after the restart [progress] holds the objective value of every
    iterate, in order, and [snapshots] holds every tenth iterate: the 10th,
    20th, and so on, [len(progress) // 10] of them. *)
Theorem callbacks_log_every_tenth (xs : list (list float)) :
  (forall xk, In xk xs -> exists v, f xk = Ok v) ->
  exists log,
    callbacks f xs empty_log = Ok log
    /\ length (progress log) = length xs
    /\ (forall i, (i < length xs)%nat ->
          f (nth i xs []) = Ok (nth i (progress log) NaN))
    /\ length (snapshots log) = (length xs / 10)%nat
    /\ (forall j, (j < length xs / 10)%nat ->
          nth j (snapshots log) [] = nth (10 * j + 9) xs []).
Proof.
  intros Hall.
  destruct (callbacks_log_every_tenth_aux xs Hall) as (log & Hlog & Hinv).
  exists log. split; [exact Hlog |].
  unfold logged in Hinv. exact Hinv.
Qed.

Lemma callbacks_ok_inv (xs : list (list float)) :
  forall log0 log,
    callbacks f xs log0 = Ok log ->
    forall xk, In xk xs -> exists v, f xk = Ok v.
Proof.
  induction xs as [| x xs IH]; intros log0 log Hlog xk Hin; [contradiction |].
  simpl in Hlog.
  destruct (log_progress f log0 x) as [log1 |] eqn:Hstep; [| discriminate].
  destruct Hin as [<- | Hin].
  - unfold log_progress in Hstep.
    destruct (f x) as [v |]; [now exists v | discriminate].
  - now apply (IH log1 log).
Qed.

(** X15.  Line 118 reads the first snapshot of the first restart.  It is the
    10th iterate of that restart when there are at least ten, and the lookup
    raises [IndexError] when the first restart reported fewer than ten. *)
Theorem first_snapshot_needs_ten_iterates (xs : list (list float))
    (log : progress_log) (later : list (list (list float))) :
  callbacks f xs empty_log = Ok log ->
  first_snapshot_params (snapshots log :: later)
  = if (10 <=? length xs)%nat then Ok (nth 9 xs []) else Raise IndexError.
Proof.
  intros Hlog.
  pose proof (callbacks_ok_inv xs empty_log log Hlog) as Hall.
  destruct (callbacks_log_every_tenth_aux xs Hall) as (log' & Hlog' & Hinv).
  rewrite Hlog in Hlog'. injection Hlog' as <-.
  destruct Hinv as (_ & _ & Hs & Hn).
  unfold first_snapshot_params.
  destruct (10 <=? length xs)%nat eqn:Hten.
  - apply Nat.leb_le in Hten.
    assert (H0 : (0 < length xs / 10)%nat).
    { pose proof (Nat.div_mod_eq (length xs) 10).
      pose proof (Nat.mod_upper_bound (length xs) 10 ltac:(lia)). lia. }
    specialize (Hn 0%nat H0).
    destruct (snapshots log) as [| p ps].
    + cbn [length] in Hs. lia.
    + cbn [nth] in Hn. now rewrite Hn.
  - apply Nat.leb_gt in Hten.
    assert (H0 : (length xs / 10 = 0)%nat) by (apply Nat.div_small; lia).
    destruct (snapshots log) as [| p ps]; [reflexivity |].
    cbn [length] in Hs. lia.
Qed.

End Callback.

Lemma callbacks_log_every_tenth_witness :
  exists log,
    callbacks (fun _ => Ok f0) [[Fin 25; f0; f50]; [Fin 26; f0; f50]] empty_log
      = Ok log
    /\ length (progress log) = 2%nat.
Proof.
  destruct (callbacks_log_every_tenth (fun _ => Ok f0)
              [[Fin 25; f0; f50]; [Fin 26; f0; f50]])
    as (log & Hlog & Hlen & _).
  - intros xk _. now exists f0.
  - exists log. split; [exact Hlog | exact Hlen].
Defined.

Lemma first_snapshot_needs_ten_iterates_witness :
  first_snapshot_params
    (snapshots (mk_log [f0; f0] []) :: [])
  = Raise IndexError.
Proof.
  apply (first_snapshot_needs_ten_iterates (fun _ => Ok f0)
           [[Fin 25; f0; f50]; [Fin 26; f0; f50]] (mk_log [f0; f0] []) []).
  reflexivity.
Defined.

(** ** Which restart becomes the incumbent *)

Lemma ltb_numbers (a b : float) :
  Float.ltb a b = true -> is_number a /\ is_number b.
Proof. destruct a, b; simpl; easy. Qed.

Lemma ltb_leb_trans (a b c : float) :
  Float.ltb a b = true -> Float.leb b c = true -> Float.ltb a c = true.
Proof.
  destruct a, b, c; simpl; try easy.
  rewrite !Rltb_true, Rleb_true. lra.
Qed.

Section FirstLowest.

Variable differential_evolution :
  (list float -> result float) -> list (float * float) ->
  Z -> Z -> Z -> result OptimizeResult.
Variables t_vals x_data y_data : list float.

Local Abbreviation de_run := (de_restart differential_evolution t_vals x_data y_data).
Local Abbreviation loop := (restart_loop differential_evolution t_vals x_data y_data).

(** From an incumbent [b], the loop ends with [b] itself, which no later
    restart has beaten, or with the result of a restart that is strictly
    below [b] and below every restart before it, and that no later restart
    has beaten. *)
Lemma restart_loop_first_lowest (runs : list Z) :
  forall b out,
    (forall run res, In run runs -> de_run run = Ok res ->
                     is_number (res_fun res)) ->
    loop runs (Some b) = Ok out ->
    exists o,
      out = Some o
      /\ ((o = b
           /\ forall run res, In run runs -> de_run run = Ok res ->
                Float.ltb (res_fun res) (res_fun b) = false)
          \/ exists pre run post,
               runs = pre ++ run :: post
               /\ de_run run = Ok o
               /\ Float.ltb (res_fun o) (res_fun b) = true
               /\ (forall r res, In r pre -> de_run r = Ok res ->
                     Float.ltb (res_fun o) (res_fun res) = true)
               /\ (forall r res, In r post -> de_run r = Ok res ->
                     Float.ltb (res_fun res) (res_fun o) = false)).
Proof.
  induction runs as [| run runs IH]; intros b out Hnum Hloop.
  - simpl in Hloop. injection Hloop as <-.
    exists b. split; [reflexivity |]. left. split; [reflexivity |].
    intros r res [].
  - simpl in Hloop.
    destruct (de_run run) as [res |] eqn:Hrun; simpl in Hloop; [| discriminate].
    assert (Hnum' : forall r res', In r runs -> de_run r = Ok res' ->
                                   is_number (res_fun res'))
      by (intros r res' Hr; apply Hnum; now right).
    destruct (Float.ltb (res_fun res) (res_fun b)) eqn:Hlt.
    + destruct (IH res out Hnum' Hloop) as (o & -> & Hcases).
      exists o. split; [reflexivity |]. right.
      destruct Hcases as [[-> Hlater] | (pre & r & post & -> & Hr & Hor & Hpre & Hpost)].
      * exists [], run, runs. repeat split; auto; intros r res' [].
      * exists (run :: pre), r, post. repeat split; auto.
        -- eapply ltb_trans; eassumption.
        -- intros r' res' [<- | Hin] Hr'.
           ++ rewrite Hrun in Hr'. now injection Hr' as <-.
           ++ now apply (Hpre r').
    + destruct (IH b out Hnum' Hloop) as (o & -> & Hcases).
      exists o. split; [reflexivity |].
      destruct Hcases as [[-> Hlater] | (pre & r & post & -> & Hr & Hob & Hpre & Hpost)].
      * left. split; [reflexivity |].
        intros r res' [<- | Hin] Hr.
        -- rewrite Hrun in Hr. now injection Hr as <-.
        -- now apply (Hlater r).
      * right. exists (run :: pre), r, post. repeat split; auto.
        intros r' res' [<- | Hin] Hr'.
        -- rewrite Hrun in Hr'. injection Hr' as <-.
           destruct (ltb_numbers _ _ Hob) as [_ Hb].
           eapply ltb_leb_trans; [exact Hob |].
           apply ltb_false_leb; auto.
           apply (Hnum run); [now left | exact Hrun].
        -- now apply (Hpre r').
Qed.

(** X16.  When the three restarts return results whose values are numbers,
    the incumbent of the global search is the earliest restart with the
    lowest value: it is strictly below every restart before it, and no
    restart after it is strictly below it, so of two restarts with equal
    values the earlier one is kept. *)
Theorem global_search_keeps_earliest_lowest :
  (forall run, (1 <= run <= 3)%Z ->
     exists res, de_run run = Ok res /\ is_number (res_fun res)) ->
  exists best run,
    global_search differential_evolution t_vals x_data y_data = Ok (Some best)
    /\ (1 <= run <= 3)%Z
    /\ de_run run = Ok best
    /\ (forall r res, (1 <= r < run)%Z -> de_run r = Ok res ->
          Float.ltb (res_fun best) (res_fun res) = true)
    /\ (forall r res, (run < r <= 3)%Z -> de_run r = Ok res ->
          Float.ltb (res_fun res) (res_fun best) = false).
Proof.
  intros Hall.
  destruct (Hall 1%Z ltac:(lia)) as (res1 & Hres1 & _).
  assert (Hnum : forall run res, In run [2%Z; 3%Z] -> de_run run = Ok res ->
                                 is_number (res_fun res)).
  { intros run res Hin Hrun.
    destruct (Hall run) as (res' & Hres' & Hn).
    - simpl in Hin. lia.
    - rewrite Hrun in Hres'. now injection Hres' as <-. }
  destruct (restart_loop_returns differential_evolution t_vals x_data y_data
              [2%Z; 3%Z]) with (best := Some res1) as [out Hout].
  { intros run Hin. destruct (Hall run) as (res & Hres & _).
    - simpl in Hin. lia.
    - now exists res. }
  assert (Hglobal : global_search differential_evolution t_vals x_data y_data
                    = Ok out).
  { unfold global_search.
    change restart_indices with [1%Z; 2%Z; 3%Z].
    cbn [restart_loop]. rewrite Hres1. exact Hout. }
  destruct (restart_loop_first_lowest _ _ _ Hnum Hout) as (o & -> & Hcases).
  exists o.
  destruct Hcases as [[-> Hlater] | (pre & r & post & Hsplit & Hr & Hob & Hpre & Hpost)].
  - exists 1%Z. repeat split; auto; try lia.
    intros r res Hr Hres. apply (Hlater r); [simpl; lia | exact Hres].
  - exists r.
    destruct pre as [| p [| p2 pre]].
    + injection Hsplit as <- <-.
      repeat split; auto; try lia.
      * intros r' res Hr' Hres. assert (r' = 1%Z) by lia. subst r'.
        rewrite Hres1 in Hres. now injection Hres as <-.
      * intros r' res Hr' Hres. apply (Hpost r'); [simpl; lia | exact Hres].
    + injection Hsplit as <- <- <-.
      repeat split; auto; try lia.
      intros r' res Hr' Hres.
      assert (Hcase : r' = 1%Z \/ r' = 2%Z) by lia.
      destruct Hcase as [-> | ->].
      * rewrite Hres1 in Hres. now injection Hres as <-.
      * apply (Hpre 2%Z); [now left | exact Hres].
    + exfalso. apply (f_equal (@length Z)) in Hsplit.
      simpl in Hsplit. rewrite length_app in Hsplit. simpl in Hsplit. lia.
Qed.

End FirstLowest.

Lemma global_search_keeps_earliest_lowest_witness :
  exists best run,
    global_search Example.centre_de [f0; f42] [f0; f0] [f42; f42]
      = Ok (Some best)
    /\ (1 <= run <= 3)%Z.
Proof.
  destruct (global_search_keeps_earliest_lowest Example.centre_de
              [f0; f42] [f0; f0] [f42; f42]) as (best & run & Hbest & Hrun & _).
  - intros run _. eexists. split; reflexivity.
  - exists best, run. split; [exact Hbest | exact Hrun].
Defined.

(** * The code within the range of float64 *)

(** ** The overflow bound *)

Lemma two_p970_big : 1000000 <= two_p970.
Proof.
  unfold two_p970. apply Rle_trans with (2 ^ 20).
  - simpl. lra.
  - apply Rle_pow; [lra | lia].
Qed.

Opaque two_p970.

Lemma OMEGA_big : 10 ^ 22 <= OMEGA.
Proof. unfold OMEGA. pose proof two_p970_big. simpl. lra. Qed.

Lemma overflow_small (r : R) : Rabs r < OMEGA -> overflow (Fin r) = Fin r.
Proof.
  intros H. unfold overflow.
  now rewrite (proj2 (Rleb_false _ _) H).
Qed.


(** Below the bound the operations are the exact ones. *)
Lemma F64_exact (r : R) (v : float) :
  v = Fin r -> Rabs r < OMEGA -> overflow v = Fin r.
Proof. intros ->. apply overflow_small. Qed.

Lemma MAX_FLOAT_below_OMEGA : MAX_FLOAT < OMEGA.
Proof. unfold MAX_FLOAT, OMEGA. pose proof two_p970_big. lra. Qed.

(** ** Values that are not negative *)


Lemma overflow_nonneg (v : float) : nonneg_or_nan v -> nonneg_or_nan (overflow v).
Proof.
  destruct v as [r | | |]; simpl; auto.
  intros Hr. destruct (Rleb OMEGA (Rabs r)); [| exact Hr].
  unfold Float.inf_of_sign.
  now rewrite (proj2 (Rltb_false _ _)) by lra.
Qed.

Lemma abs_nonneg (v : float) : nonneg_or_nan (Float.abs v).
Proof. destruct v; simpl; auto. apply Rabs_pos. Qed.

Lemma add64_nonneg (a b : float) :
  nonneg_or_nan a -> nonneg_or_nan b -> nonneg_or_nan (F64.add a b).
Proof.
  intros Ha Hb. apply overflow_nonneg.
  destruct a, b; simpl in *; auto; lra.
Qed.

Lemma hypot64_nonneg (a b : float) : nonneg_or_nan (F64.hypot a b).
Proof.
  apply overflow_nonneg. destruct a, b; simpl; auto. apply sqrt_pos.
Qed.



Lemma np_sum64_nonneg (l : list float) :
  Forall nonneg_or_nan l -> nonneg_or_nan (np_sum64 l).
Proof.
  unfold np_sum64.
  assert (H0 : nonneg_or_nan f0) by (simpl; lra).
  revert H0. generalize f0.
  induction l as [| v l IH]; intros acc Hacc Hl; simpl; [exact Hacc |].
  inversion Hl; subst. apply IH; auto using add64_nonneg.
Qed.

Lemma residual_error64_nonneg (flag : bool) (dy : list float) :
  nonneg_or_nan (residual_error64 flag dy).
Proof.
  unfold residual_error64. destruct flag; simpl; apply np_sum64_nonneg.
  - unfold np_zeros_like.
    induction dy as [| v dy IH]; simpl; constructor; auto using hypot64_nonneg.
  - rewrite Forall_map. apply Forall_forall. intros v _. apply abs_nonneg.
Qed.


(** ** The paths of [objective] *)

Lemma try_interp64_length (xs ys x_data y_interp : list float) :
  try_interp64 xs ys x_data = Ok y_interp -> length y_interp = length x_data.
Proof.
  unfold try_interp64. intros H.
  destruct (getitem ys 0); [| discriminate].
  destruct (getitem_last ys); [| discriminate]. cbn [bind] in H.
  destruct (interp1d xs ys (a, a0)); [| discriminate]. cbn [bind] in H.
  injection H as <-. apply length_map.
Qed.

(** With observation arrays of one length the function returns [+inf] from
    one of its three early exits, or the value of its last line. *)
Lemma objective64_paths (flag : bool) (theta M X : float)
    (t_vals x_data y_data : list float) :
  length x_data = length y_data ->
  objective64_flag flag [theta; M; X] t_vals x_data y_data = Ok PInf
  \/ (in_box theta M X = true
      /\ exists dy,
           objective64_flag flag [theta; M; X] t_vals x_data y_data
           = Ok (F64.add (residual_error64 flag dy)
                         (F64.mul f200 (reg_of64 M)))).
Proof.
  intros Hlen. unfold objective64_flag.
  destruct (in_box theta M X); [| now left]. cbn [negb].
  destruct (parametric_curve64 t_vals theta M X) as [x_pred y_pred].
  destruct (negb (np_all_isfinite x_pred) || negb (np_all_isfinite y_pred));
    [now left |].
  destruct (try_interp64 _ _ x_data) as [y_interp |] eqn:Htry; [| now left].
  apply try_interp64_length in Htry.
  unfold np_sub64, broadcast2.
  rewrite (proj2 (Nat.eqb_eq _ _)) by congruence. cbn [bind].
  right. split; [reflexivity |]. eexists. reflexivity.
Qed.




(** ** The regularisation term within the box *)

Lemma below_OMEGA (r b : R) : Rabs r <= b -> b <= 10 ^ 21 -> Rabs r < OMEGA.
Proof.
  intros Hr Hb. pose proof OMEGA_big as Hbig. simpl in Hb, Hbig. lra.
Qed.

Lemma reg64_in_box (m : R) :
  - (8 / 100) <= m <= 8 / 100 ->
  F64.mul f200 (reg_of64 (Fin m)) = Fin (reg_term m).
Proof.
  intros Hm.
  unfold reg_of64, F64.sqr, F64.mul, F64.div, F64.sub, f200, f0_015, f0_02.
  cbn [Float.sub Float.add Float.neg].
  rewrite overflow_small
    by (apply (below_OMEGA _ 1); [apply Rabs_le; lra | simpl; lra]).
  unfold Float.div.
  rewrite (proj2 (Reqb_false (2 / 100) 0)) by lra.
  set (u := (m + - (15 / 1000)) / (2 / 100)).
  assert (Hu : - 5 <= u <= 5) by (unfold u; lra).
  rewrite overflow_small
    by (apply (below_OMEGA _ 5); [apply Rabs_le; lra | simpl; lra]).
  cbn [Float.mul].
  rewrite overflow_small
    by (apply (below_OMEGA _ 25); [apply Rabs_le; nra | simpl; lra]).
  cbn [Float.mul].
  rewrite overflow_small
    by (apply (below_OMEGA _ 5000); [apply Rabs_le; nra | simpl; lra]).
  f_equal. unfold reg_term, u. field.
Qed.

(** ** The feasible path *)

Lemma objective64_last_line (flag : bool) (theta M X : float)
    (t_vals x_data y_data y_interp dy : list float) :
  in_box theta M X = true ->
  all_finite (fst (parametric_curve64 t_vals theta M X)) ->
  all_finite (snd (parametric_curve64 t_vals theta M X)) ->
  try_interp64 (fst (sorted_table64 t_vals theta M X))
               (snd (sorted_table64 t_vals theta M X)) x_data = Ok y_interp ->
  np_sub64 y_interp y_data = Ok dy ->
  objective64_flag flag [theta; M; X] t_vals x_data y_data
  = Ok (F64.add (residual_error64 flag dy) (F64.mul f200 (reg_of64 M))).
Proof.
  intros Hbox Hfx Hfy Htry Hsub.
  unfold objective64_flag, sorted_table64 in *. rewrite Hbox. cbn [negb].
  destruct (parametric_curve64 t_vals theta M X) as [x_pred y_pred].
  cbn [fst snd] in *.
  apply all_finite_forallb in Hfx, Hfy. rewrite Hfx, Hfy. cbn [negb orb].
  rewrite Htry, Hsub. reflexivity.
Qed.

Lemma parametric_curve64_length (t_vals : list float) (theta M X : float) :
  length (fst (parametric_curve64 t_vals theta M X)) = length t_vals
  /\ length (snd (parametric_curve64 t_vals theta M X)) = length t_vals.
Proof. unfold parametric_curve64. cbn [fst snd]. now rewrite !length_map. Qed.

Lemma try_interp64_feasible (t_vals x_data : list float) (theta M X : float) :
  all_finite (fst (parametric_curve64 t_vals theta M X)) ->
  all_finite (snd (parametric_curve64 t_vals theta M X)) ->
  t_vals <> [] ->
  try_interp64 (fst (sorted_table64 t_vals theta M X))
               (snd (sorted_table64 t_vals theta M X)) x_data
  = Ok (interp_call64 (fitted_interp64 t_vals theta M X) x_data).
Proof.
  intros Hfx Hfy Hne.
  destruct (parametric_curve64_length t_vals theta M X) as [Hlx Hly].
  unfold fitted_interp64, sorted_table64.
  destruct (parametric_curve64 t_vals theta M X) as [x_pred y_pred].
  cbn [fst snd] in *.
  set (xs := take x_pred (argsort x_pred)).
  set (ys := take y_pred (argsort x_pred)).
  assert (Hs : StronglySorted le_float xs) by now apply argsort_sorted.
  assert (Hlxs : length xs = length t_vals)
    by (unfold xs; now rewrite take_length, argsort_length).
  assert (Hlys : length ys = length t_vals)
    by (unfold ys; now rewrite take_length, argsort_length).
  apply nonempty_length in Hne.
  assert (Hxs : xs <> []) by (apply nonempty_length; lia).
  assert (Hys : ys <> []) by (apply nonempty_length; lia).
  unfold try_interp64.
  rewrite (getitem_first ys Hys), (getitem_last_ok ys Hys). cbn [bind].
  rewrite interp1d_of_sorted; auto; congruence.
Qed.

Lemma np_sub64_same_length (a b : list float) :
  length a = length b -> np_sub64 a b = Ok (map2 F64.sub a b).
Proof.
  intros Hlen. unfold np_sub64, broadcast2.
  now rewrite (proj2 (Nat.eqb_eq _ _) Hlen).
Qed.


(** ** The value of [objective] *)





(** ** Evaluation on concrete inputs *)

Lemma F64_add_exact (a b : R) :
  Rabs (a + b) < OMEGA -> F64.add (Fin a) (Fin b) = Fin (a + b).
Proof. intros H. unfold F64.add. cbn [Float.add]. now apply overflow_small. Qed.

Lemma F64_sub_exact (a b : R) :
  Rabs (a - b) < OMEGA -> F64.sub (Fin a) (Fin b) = Fin (a - b).
Proof.
  intros H. unfold F64.sub. cbn [Float.sub Float.add Float.neg].
  now apply overflow_small.
Qed.

Lemma F64_mul_exact (a b : R) :
  Rabs (a * b) < OMEGA -> F64.mul (Fin a) (Fin b) = Fin (a * b).
Proof. intros H. unfold F64.mul. cbn [Float.mul]. now apply overflow_small. Qed.

(** A bound by a number far below the overflow bound; sines are between -1 and 1. *)
Ltac small :=
  apply (below_OMEGA _ (10 ^ 20)); [| simpl; lra];
  apply Rabs_le; simpl pow;
  repeat match goal with
         | |- context [sin ?a] =>
             lazymatch goal with
             | _ : -1 <= sin a <= 1 |- _ => fail
             | _ => pose proof (SIN_bound a)
             end
         end;
  lra.

Ltac f64_exact :=
  repeat first [ rewrite F64_mul_exact by small
               | rewrite F64_add_exact by small
               | rewrite F64_sub_exact by small ].

Ltac decide_cmp :=
  repeat first [ rewrite (proj2 (Rltb_true _ _)) by lra
               | rewrite (proj2 (Rltb_false _ _)) by lra
               | rewrite (proj2 (Rleb_true _ _)) by lra
               | rewrite (proj2 (Rleb_false _ _)) by lra
               | rewrite (proj2 (Reqb_true _ _)) by lra
               | rewrite (proj2 (Reqb_false _ _)) by lra ].

(** The samples at [theta = 0] and [M = 0]: the line [x = t + X] under the
    sine of [0.3 t]. *)
Lemma curve_point64_flat (t x : R) :
  Rabs t <= 100 -> Rabs x <= 100 ->
  curve_point64 (Fin t) (Fin 0) (Fin 0) (Fin x)
  = (Fin (t + x), Fin (42 + sin (3 / 10 * t))).
Proof.
  intros Ht Hx. apply abs_le_inv in Ht, Hx.
  unfold curve_point64, F64.deg2rad, F64.exp, f0_3, f42. cbv zeta.
  cbn [Float.abs].
  rewrite (F64_mul_exact 0 (PI / 180)) by (rewrite Rmult_0_l; small).
  rewrite (F64_mul_exact 0 (Rabs t)) by (rewrite Rmult_0_l; small).
  rewrite !Rmult_0_l, clip_zero. cbn [Float.exp Float.cos Float.sin].
  rewrite exp_0, cos_0, sin_0.
  rewrite overflow_small by small.
  f64_exact. cbn [Float.sin]. f64_exact.
  f_equal; f_equal; ring.
Qed.



Lemma mul_bound (a b A B : R) :
  Rabs a <= A -> Rabs b <= B -> - (A * B) <= a * b <= A * B.
Proof.
  intros Ha Hb. apply abs_le_inv. rewrite Rabs_mult.
  pose proof (Rabs_pos a). pose proof (Rabs_pos b).
  apply Rmult_le_compat; assumption.
Qed.









(** ** The regularisation term in the value of [objective] *)

(** The samples, the table and the interpolated values at [theta = 0],
    [M = 0], [X = 50] and [t_vals = [6, 60]]. *)
Lemma flat_samples64 :
  parametric_curve64 [Fin 6; Fin 60] (Fin 0) (Fin 0) (Fin 50)
  = ([Fin 56; Fin 110],
     [Fin (42 + sin (3 / 10 * 6)); Fin (42 + sin (3 / 10 * 60))]).
Proof.
  unfold parametric_curve64. cbn [map].
  rewrite !curve_point64_flat by (rewrite Rabs_pos_eq; lra).
  cbn [fst snd].
  replace (6 + 50) with 56 by lra. replace (60 + 50) with 110 by lra.
  reflexivity.
Qed.

Lemma flat_table64 :
  sorted_table64 [Fin 6; Fin 60] (Fin 0) (Fin 0) (Fin 50)
  = ([Fin 56; Fin 110],
     [Fin (42 + sin (3 / 10 * 6)); Fin (42 + sin (3 / 10 * 60))]).
Proof.
  unfold sorted_table64. rewrite flat_samples64.
  assert (Hs : StronglySorted le_float [Fin 56; Fin 110]).
  { repeat constructor. unfold le_float. simpl. apply Rleb_true. lra. }
  rewrite (argsort_of_sorted _ Hs). reflexivity.
Qed.

Lemma flat_try64 (y0 y1 : R) :
  try_interp64 [Fin 56; Fin 110] [Fin y0; Fin y1] [Fin 56; Fin 56]
  = Ok [Fin y0; Fin y0].
Proof.
  assert (Hs : StronglySorted le_float [Fin 56; Fin 110]).
  { repeat constructor. unfold le_float. simpl. apply Rleb_true. lra. }
  unfold try_interp64. cbn [getitem getitem_last nth_error length Nat.sub bind].
  rewrite interp1d_of_sorted by (auto; discriminate).
  cbn [bind fst snd interp_call64 map].
  assert (Hq : interp_at64 (mk_interp1d [Fin 56; Fin 110] [Fin y0; Fin y1]
                              (Fin y0) (Fin y1)) (Fin 56) = Fin y0).
  { unfold interp_at64, np_interp64.
    cbn [ip_x ip_y ip_below ip_above hd last length Nat.eqb Float.ltb
         Float.isnan interp_scan64].
    decide_cmp. unfold segment64. cbn [Float.eqb]. now decide_cmp. }
  now rewrite Hq.
Qed.

(** C7.  When [objective] reaches its last line with [M] in its interval,
    the value it returns is the residual error plus
    [200 * ((M - 0.015) / 0.02)^2], in the exact reading and in the reading
    with overflow alike, and nothing else depends on the regularisation.  That
    term is never negative, it is zero at [M = 0.015] and nowhere else, so
    [M = 0.015] is its only minimiser. *)
Theorem regularization_minimum (m : R) :
  (forall (flag : bool) (theta X : float) (t_vals x_data y_data dy : list float),
     in_box theta (Fin m) X = true ->
     all_finite (fst (parametric_curve t_vals theta (Fin m) X)) ->
     all_finite (snd (parametric_curve t_vals theta (Fin m) X)) ->
     t_vals <> [] ->
     np_sub (interp_call (fitted_interp t_vals theta (Fin m) X) x_data) y_data
     = Ok dy ->
     objective_flag flag [theta; Fin m; X] t_vals x_data y_data
     = Ok (Float.add (residual_error flag dy) (Fin (reg_term m))))
  /\ (forall (flag : bool) (theta X : float)
             (t_vals x_data y_data y_interp dy : list float),
        in_box theta (Fin m) X = true ->
        all_finite (fst (parametric_curve64 t_vals theta (Fin m) X)) ->
        all_finite (snd (parametric_curve64 t_vals theta (Fin m) X)) ->
        try_interp64 (fst (sorted_table64 t_vals theta (Fin m) X))
                     (snd (sorted_table64 t_vals theta (Fin m) X)) x_data
        = Ok y_interp ->
        np_sub64 y_interp y_data = Ok dy ->
        objective64_flag flag [theta; Fin m; X] t_vals x_data y_data
        = Ok (F64.add (residual_error64 flag dy) (Fin (reg_term m))))
  /\ 0 <= reg_term m
  /\ (reg_term m = 0 <-> m = 15 / 1000)
  /\ (m <> 15 / 1000 -> reg_term (15 / 1000) < reg_term m).
Proof.
  split.
  { intros flag theta X t_vals x_data y_data dy Hbox Hfx Hfy Hne Hsub.
    rewrite objective_feasible by assumption.
    rewrite Hsub. cbn [bind].
    now rewrite residual_error_flag, reg_of_finite. }
  split.
  { intros flag theta X t_vals x_data y_data y_interp dy Hbox Hfx Hfy Htry Hsub.
    assert (Hm : - (8 / 100) <= m <= 8 / 100).
    { apply in_box_spec in Hbox as (_ & Hm & _). exact Hm. }
    rewrite <- (reg64_in_box m Hm).
    now apply (objective64_last_line _ _ _ _ _ _ _ y_interp). }
  unfold reg_term.
  assert (Hsq : forall u : R, 0 <= u ^ 2) by (intro u; nra).
  assert (Hz : forall u : R, u ^ 2 = 0 -> u = 0) by (intro u; nra).
  assert (Hpos : forall u : R, u <> 0 -> 0 < u ^ 2) by (intros u Hu; nra).
  repeat split.
  - specialize (Hsq ((m - 15 / 1000) / (2 / 100))). lra.
  - intros H0.
    assert (H1 : ((m - 15 / 1000) / (2 / 100)) ^ 2 = 0) by lra.
    apply Hz in H1. lra.
  - intros ->. replace (15 / 1000 - 15 / 1000) with 0 by lra.
    unfold Rdiv. rewrite Rmult_0_l. simpl. lra.
  - intros Hne.
    replace ((15 / 1000 - 15 / 1000) / (2 / 100)) with 0 by lra.
    assert (Hu : (m - 15 / 1000) / (2 / 100) <> 0) by (intro Hc; apply Hne; lra).
    apply Hpos in Hu. simpl in *. lra.
Qed.

Lemma regularization_minimum_witness :
  objective [Fin 0; Fin 0; Fin 50] [Fin 6; Fin 60] [Fin 56; Fin 56]
            [Fin 42; Fin 42]
  = Ok (Float.add
          (residual_error USE_EUCLIDEAN
             (map2 Float.sub
                (interp_call
                   (fitted_interp [Fin 6; Fin 60] (Fin 0) (Fin 0) (Fin 50))
                   [Fin 56; Fin 56])
                [Fin 42; Fin 42]))
          (Fin (reg_term 0)))
  /\ objective64 [Fin 0; Fin 0; Fin 50] [Fin 6; Fin 60] [Fin 56; Fin 56]
                 [Fin 42; Fin 42]
     = Ok (F64.add
             (residual_error64 USE_EUCLIDEAN
                [F64.sub (Fin (42 + sin (3 / 10 * 6))) (Fin 42);
                 F64.sub (Fin (42 + sin (3 / 10 * 6))) (Fin 42)])
             (Fin (reg_term 0)))
  /\ reg_term (15 / 1000) < reg_term 0.
Proof.
  assert (Hbox : in_box (Fin 0) (Fin 0) (Fin 50) = true)
    by (apply within_in_box; simpl; lra).
  assert (Ht : all_finite [Fin 6; Fin 60]) by repeat constructor.
  destruct (samples_finite_in_box _ _ _ _ Hbox Ht) as [Hpx Hpy].
  split; [| split].
  - apply (proj1 (regularization_minimum 0));
      [exact Hbox | exact Hpx | exact Hpy | discriminate |].
    apply np_sub_same_length. now rewrite interp_call_length.
  - apply (proj1 (proj2 (regularization_minimum 0))) with
      (y_interp := [Fin (42 + sin (3 / 10 * 6)); Fin (42 + sin (3 / 10 * 6))]).
    + exact Hbox.
    + rewrite flat_samples64. repeat constructor.
    + rewrite flat_samples64. repeat constructor.
    + rewrite flat_table64. apply flat_try64.
    + reflexivity.
  - apply (regularization_minimum 0). lra.
Defined.

(** X9.  With [M] in its interval and observation arrays of one length, the
    value of [objective] is never below the regularisation term of its [M]
    (unless it is [nan]): however well the curve fits, a growth rate away from
    0.015 costs at least [200 * ((M - 0.015) / 0.02)^2]. *)
Theorem objective64_at_least_regularization (theta X : float) (m : R)
    (t_vals x_data y_data : list float) :
  - (8 / 100) <= m <= 8 / 100 -> length x_data = length y_data ->
  exists v,
    objective64 [theta; Fin m; X] t_vals x_data y_data = Ok v
    /\ (v = NaN \/ Float.leb (Fin (reg_term m)) v = true).
Proof.
  intros Hm Hlen. unfold objective64.
  destruct (objective64_paths USE_EUCLIDEAN theta (Fin m) X t_vals x_data
              y_data Hlen) as [-> | (_ & dy & ->)].
  - exists PInf. split; [reflexivity | now right].
  - rewrite (reg64_in_box m Hm).
    eexists. split; [reflexivity |].
    pose proof (residual_error64_nonneg USE_EUCLIDEAN dy) as He.
    pose proof (regularization_floor m) as Hr.
    destruct (residual_error64 USE_EUCLIDEAN dy) as [e | | |];
      try contradiction; simpl in He.
    + unfold F64.add. cbn [Float.add overflow].
      destruct (Rleb OMEGA (Rabs (e + reg_term m))).
      * right. unfold Float.inf_of_sign.
        now rewrite (proj2 (Rltb_false _ _)) by lra.
      * right. simpl. apply Rleb_true. lra.
    + right. reflexivity.
    + left. reflexivity.
Qed.

Lemma objective64_at_least_regularization_witness :
  exists v,
    objective64 [Fin 25; Fin 0; Fin 50] [Fin 6; Fin 60]
                [Fin 55; Fin 100] [Fin 45; Fin 70] = Ok v
    /\ (v = NaN \/ Float.leb (Fin (reg_term 0)) v = true).
Proof.
  apply (objective64_at_least_regularization (Fin 25) (Fin 50) 0
           [Fin 6; Fin 60] [Fin 55; Fin 100] [Fin 45; Fin 70]);
    [lra | reflexivity].
Defined.

(** ** The domain of the script *)

Lemma exp_INR (n : nat) : exp (INR n) = exp 1 ^ n.
Proof.
  induction n as [| n IH]; [simpl; apply exp_0 |].
  rewrite S_INR, exp_plus, IH. simpl. ring.
Qed.

Lemma exp_30_bound : exp 30 <= 10 ^ 15.
Proof.
  replace 30 with (INR 30) by (simpl; lra).
  rewrite exp_INR.
  apply Rle_trans with (3 ^ 30).
  - apply pow_incr. split; [left; apply exp_pos | apply exp_le_3].
  - simpl. lra.
Qed.

(** On the domain of the script no operation of [parametric_curve] leaves the
    range: the sample is the one of the exact reading. *)
Lemma curve_point64_exact (t th m x : R) :
  Rabs t <= 1000 -> 0 <= th <= 50 -> - (8 / 100) <= m <= 8 / 100 ->
  0 <= x <= 100 ->
  curve_point64 (Fin t) (Fin th) (Fin m) (Fin x)
  = curve_point (Fin t) (Fin th) (Fin m) (Fin x).
Proof.
  intros Ht Hth Hm Hx.
  rewrite curve_point_value. cbv zeta.
  pose proof PI_RGT_0 as Hpi0. pose proof PI_4 as Hpi4.
  pose proof exp_30_bound as He30. simpl pow in He30.
  assert (Ha : - (50 * 1) <= th * (PI / 180) <= 50 * 1)
    by (apply mul_bound; apply Rabs_le; lra).
  assert (Hmt : - (8 / 100 * 1000) <= m * Rabs t <= 8 / 100 * 1000).
  { apply mul_bound; [apply Rabs_le; lra |]. now rewrite Rabs_Rabsolu. }
  unfold curve_point64, F64.deg2rad, F64.exp, f0_3, f42. cbv zeta.
  cbn [Float.abs].
  rewrite (F64_mul_exact th (PI / 180)) by small.
  rewrite (F64_mul_exact m (Rabs t)) by small.
  rewrite clip_value. cbn [Float.exp Float.cos Float.sin].
  set (a := th * (PI / 180)) in *.
  set (e := exp (Rmin (Rmax (m * Rabs t) (- (30))) 30)).
  assert (He : 0 < e <= exp 30).
  { split; [apply exp_pos |]. apply exp_le, Rmin_r. }
  clearbody e.
  pose proof (SIN_bound (3 / 10 * t)) as Hs.
  pose proof (SIN_bound a) as Hsa. pose proof (COS_bound a) as Hca.
  apply abs_le_inv in Ht.
  rewrite overflow_small by small.
  rewrite (F64_mul_exact (3 / 10) t) by small.
  cbn [Float.sin].
  set (s := sin (3 / 10 * t)) in *. clearbody s.
  set (sa := sin a) in *. set (ca := cos a) in *. clearbody sa ca.
  assert (Hes : - (1000000000000000 * 1) <= e * s <= 1000000000000000 * 1)
    by (apply mul_bound; apply Rabs_le; lra).
  rewrite (F64_mul_exact e s) by small.
  set (es := e * s) in *. 
  assert (Hessa : - (1000000000000000 * 1) <= es * sa <= 1000000000000000 * 1)
    by (apply mul_bound; apply Rabs_le; lra).
  assert (Hesca : - (1000000000000000 * 1) <= es * ca <= 1000000000000000 * 1)
    by (apply mul_bound; apply Rabs_le; lra).
  assert (Htca : - (1000 * 1) <= t * ca <= 1000 * 1)
    by (apply mul_bound; apply Rabs_le; lra).
  assert (Htsa : - (1000 * 1) <= t * sa <= 1000 * 1)
    by (apply mul_bound; apply Rabs_le; lra).
  rewrite (F64_mul_exact es sa) by small.
  rewrite (F64_mul_exact es ca) by small.
  rewrite (F64_mul_exact t ca) by small.
  rewrite (F64_mul_exact t sa) by small.
  set (u1 := es * sa) in *. set (u2 := es * ca) in *.
  set (v1 := t * ca) in *. set (v2 := t * sa) in *.
  rewrite (F64_sub_exact v1 u1) by small.
  rewrite (F64_add_exact (v1 - u1) x) by small.
  rewrite (F64_add_exact 42 v2) by small.
  rewrite (F64_add_exact (42 + v2) u2) by small.
  unfold u1, u2, v1, v2, es. f_equal; f_equal; ring.
Qed.

Lemma parametric_curve64_exact (t_vals : list float) (th m x : R) :
  Forall (within (- 1000) 1000) t_vals ->
  0 <= th <= 50 -> - (8 / 100) <= m <= 8 / 100 -> 0 <= x <= 100 ->
  parametric_curve64 t_vals (Fin th) (Fin m) (Fin x)
  = parametric_curve t_vals (Fin th) (Fin m) (Fin x).
Proof.
  intros Ht Hth Hm Hx. rewrite Forall_forall in Ht.
  unfold parametric_curve64, parametric_curve.
  f_equal; apply map_ext_in; intros ti Hti; specialize (Ht _ Hti);
    destruct ti as [t | | |]; try contradiction; simpl in Ht;
    rewrite curve_point64_exact; auto; apply Rabs_le; lra.
Qed.

(** X2.  For parameters in the box and [|t| <= 1000], hence on the whole
    domain [[6, 60]], a sample is finite and the clamp of line 18 keeps its
    oscillating part within [e^30] of the straight line
    [(t cos th + X, 42 + t sin th)], although [M |t|] goes up to 80. *)
Theorem curve64_oscillation_bounded (t th m x : R) :
  Rabs t <= 1000 -> 0 <= th <= 50 -> - (8 / 100) <= m <= 8 / 100 ->
  0 <= x <= 100 ->
  exists xx yy,
    curve_point64 (Fin t) (Fin th) (Fin m) (Fin x) = (Fin xx, Fin yy)
    /\ Rabs (xx - (t * cos (th * (PI / 180)) + x)) <= exp 30
    /\ Rabs (yy - (42 + t * sin (th * (PI / 180)))) <= exp 30.
Proof.
  intros Ht Hth Hm Hx.
  rewrite curve_point64_exact by assumption.
  rewrite curve_point_value. cbv zeta.
  set (e := exp (Rmin (Rmax (m * Rabs t) (- (30))) 30)).
  set (a := th * (PI / 180)).
  set (s := sin (3 / 10 * t)).
  assert (He : 0 < e <= exp 30).
  { split; [apply exp_pos |]. apply exp_le, Rmin_r. }
  assert (Hs : Rabs s <= 1) by (apply Rabs_le, SIN_bound).
  assert (Hsa : Rabs (sin a) <= 1) by (apply Rabs_le, SIN_bound).
  assert (Hca : Rabs (cos a) <= 1) by (apply Rabs_le, COS_bound).
  assert (Hbound : forall u, Rabs u <= 1 -> Rabs (e * s * u) <= exp 30).
  { intros u Hu. rewrite !Rabs_mult, (Rabs_pos_eq e) by lra.
    pose proof (Rabs_pos s). pose proof (Rabs_pos u).
    assert (Rabs s * Rabs u <= 1) by nra.
    rewrite Rmult_assoc. nra. }
  eexists. eexists. split; [reflexivity |]. split.
  - replace (t * cos a + - (e * s * sin a) + x - (t * cos a + x))
      with (- (e * s * sin a)) by ring.
    rewrite Rabs_Ropp. now apply Hbound.
  - replace (42 + t * sin a + e * s * cos a - (42 + t * sin a))
      with (e * s * cos a) by ring.
    now apply Hbound.
Qed.

Lemma curve64_oscillation_bounded_witness :
  exists xx yy,
    curve_point64 (Fin 60) (Fin 25) (Fin (8 / 100)) (Fin 50) = (Fin xx, Fin yy)
    /\ Rabs (xx - (60 * cos (25 * (PI / 180)) + 50)) <= exp 30
    /\ Rabs (yy - (42 + 60 * sin (25 * (PI / 180)))) <= exp 30.
Proof.
  apply (curve64_oscillation_bounded 60 25 (8 / 100) 50);
    try lra. rewrite Rabs_pos_eq; lra.
Defined.

Lemma within_finite (lo hi : R) (l : list float) :
  Forall (within lo hi) l -> all_finite l.
Proof.
  apply Forall_impl. intros [r | | |]; simpl; auto; contradiction.
Qed.

(** X12.  With parameters in the box and sample parameters in
    [[T_MIN, T_MAX]], as [linspace] of line 54 gives them, no operation of
    [parametric_curve] leaves the range of float64, so the samples are finite
    and the test of line 29 does not fire; the [try] block of lines 33-39
    raises nothing; and [objective] returns the value of its last line: the sum
    of the absolute differences between the interpolated and the observed [y]
    plus the regularisation term. *)
Theorem objective64_on_script_domain (theta M X : float)
    (t_vals x_data y_data : list float) :
  in_box theta M X = true ->
  Forall (within (IZR T_MIN) (IZR T_MAX)) t_vals -> t_vals <> [] ->
  length x_data = length y_data ->
  let y_interp := interp_call64 (fitted_interp64 t_vals theta M X) x_data in
  parametric_curve64 t_vals theta M X = parametric_curve t_vals theta M X
  /\ all_finite (fst (parametric_curve64 t_vals theta M X))
  /\ all_finite (snd (parametric_curve64 t_vals theta M X))
  /\ try_interp64 (fst (sorted_table64 t_vals theta M X))
                  (snd (sorted_table64 t_vals theta M X)) x_data = Ok y_interp
  /\ objective64 [theta; M; X] t_vals x_data y_data
     = Ok (F64.add (np_sum64 (map Float.abs (map2 F64.sub y_interp y_data)))
                   (Fin (reg_term (to_R M)))).
Proof.
  intros Hbox Ht Hne Hlen y_interp.
  pose proof (within_finite _ _ _ Ht) as Hfin.
  pose proof Hbox as Hbox'.
  apply in_box_spec in Hbox' as (Hth & Hm & Hx).
  destruct theta as [th | | |], M as [m | | |], X as [x | | |];
    try contradiction.
  simpl in Hth, Hm, Hx.
  assert (Hex : parametric_curve64 t_vals (Fin th) (Fin m) (Fin x)
                = parametric_curve t_vals (Fin th) (Fin m) (Fin x)).
  { apply parametric_curve64_exact; auto.
    revert Ht. apply Forall_impl. unfold T_MIN, T_MAX.
    intros [r | | |]; simpl; auto; lra. }
  destruct (parametric_curve_finite t_vals th m x Hfin) as [Hpx Hpy].
  rewrite <- Hex in Hpx, Hpy.
  pose proof (try_interp64_feasible t_vals x_data _ _ _ Hpx Hpy Hne) as Htry.
  fold y_interp in Htry.
  repeat split; auto.
  unfold objective64.
  rewrite (objective64_last_line _ _ _ _ _ _ _ y_interp
             (map2 F64.sub y_interp y_data) Hbox Hpx Hpy Htry).
  - now rewrite reg64_in_box.
  - apply np_sub64_same_length. unfold y_interp, interp_call64.
    now rewrite length_map.
Qed.

Lemma objective64_on_script_domain_witness :
  objective64 [Fin 25; Fin (15 / 1000); Fin 50] [Fin 6; Fin 60]
              [Fin 55; Fin 100] [Fin 45; Fin 70]
  = Ok (F64.add
          (np_sum64
             (map Float.abs
                (map2 F64.sub
                   (interp_call64
                      (fitted_interp64 [Fin 6; Fin 60] (Fin 25)
                         (Fin (15 / 1000)) (Fin 50))
                      [Fin 55; Fin 100])
                   [Fin 45; Fin 70])))
          (Fin (reg_term (15 / 1000)))).
Proof.
  apply (objective64_on_script_domain (Fin 25) (Fin (15 / 1000)) (Fin 50)
           [Fin 6; Fin 60] [Fin 55; Fin 100] [Fin 45; Fin 70]).
  - apply within_in_box; simpl; lra.
  - repeat constructor; unfold T_MIN, T_MAX; simpl; lra.
  - discriminate.
  - reflexivity.
Defined.

(** ** The residual distances *)

Lemma map2_length (A B C : Type) (f : A -> B -> C) (l1 : list A) :
  forall l2, length l1 = length l2 -> length (map2 f l1 l2) = length l1.
Proof.
  induction l1 as [| a l1 IH]; intros [| b l2] H; try discriminate; simpl; auto.
Qed.

Lemma map2_nth (f : float -> float -> float) (l1 : list float) :
  forall l2 i,
    length l1 = length l2 -> (i < length l1)%nat ->
    nth i (map2 f l1 l2) NaN = f (nth i l1 NaN) (nth i l2 NaN).
Proof.
  induction l1 as [| a l1 IH]; intros [| b l2] i Hlen Hi; try discriminate;
    simpl in *; [lia |].
  destruct i as [| i]; [reflexivity |]. apply IH; lia.
Qed.

Lemma overflow_zero (v : float) : overflow v = Fin 0 <-> v = Fin 0.
Proof.
  pose proof OMEGA_big as Hbig. simpl in Hbig.
  destruct v as [r | | |]; simpl; split; try discriminate; auto.
  - destruct (Rleb OMEGA (Rabs r)); [| auto].
    unfold Float.inf_of_sign. destruct (Rltb r 0); discriminate.
  - intros [= ->]. rewrite (proj2 (Rleb_false _ _)); [reflexivity |].
    rewrite Rabs_R0. lra.
Qed.

Lemma sub64_zero (a b : float) :
  F64.sub a b = Fin 0 <-> exists r, a = Fin r /\ b = Fin r.
Proof.
  unfold F64.sub. rewrite overflow_zero.
  destruct a as [p | | |], b as [q | | |]; simpl; split;
    try discriminate; try (intros (r & H1 & H2); discriminate).
  - intros [= H]. exists p. split; [reflexivity | f_equal; lra].
  - intros (r & [= ->] & [= ->]). f_equal. lra.
Qed.

Lemma hypot64_zero (a b : float) :
  F64.hypot a b = Fin 0 <-> a = Fin 0 /\ b = Fin 0.
Proof.
  unfold F64.hypot. rewrite overflow_zero.
  destruct a as [p | | |], b as [q | | |]; simpl; split;
    try discriminate; try (intros [H1 H2]; discriminate).
  - intros [= H]. apply sqrt_eq_0 in H; [| nra].
    split; f_equal; nra.
  - intros [[= ->] [= ->]]. f_equal.
    replace (0 * 0 + 0 * 0) with 0 by ring. apply sqrt_0.
Qed.

(** X13.  For observation arrays as long as [t_vals], the residuals of line
    115 are one value per observation, none of them negative, and a residual
    is zero exactly where the fitted sample and the observation are the same
    finite point. *)
Theorem residuals64_spec (theta M X : float) (t_vals x_data y_data : list float) :
  length x_data = length t_vals -> length y_data = length t_vals ->
  exists rs,
    residuals64 t_vals theta M X x_data y_data = Ok rs
    /\ length rs = length t_vals
    /\ forall i, (i < length t_vals)%nat ->
         nonneg_or_nan (nth i rs NaN)
         /\ (nth i rs NaN = Fin 0 <->
             exists a b,
               nth i (fst (parametric_curve64 t_vals theta M X)) NaN = Fin a
               /\ nth i x_data NaN = Fin a
               /\ nth i (snd (parametric_curve64 t_vals theta M X)) NaN = Fin b
               /\ nth i y_data NaN = Fin b).
Proof.
  intros Hlx Hly.
  destruct (parametric_curve64_length t_vals theta M X) as [Hfx Hfy].
  unfold residuals64.
  destruct (parametric_curve64 t_vals theta M X) as [x_fit y_fit].
  cbn [fst snd] in *.
  rewrite !np_sub64_same_length by congruence. cbn [bind].
  unfold np_hypot64, broadcast2.
  rewrite !map2_length by congruence.
  rewrite (proj2 (Nat.eqb_eq _ _)) by congruence.
  eexists. split; [reflexivity |].
  split; [rewrite !map2_length; rewrite ?map2_length; congruence |].
  intros i Hi.
  rewrite !map2_nth; rewrite ?map2_length; try congruence; try lia.
  split; [apply hypot64_nonneg |].
  rewrite hypot64_zero, !sub64_zero. split.
  - intros [(a & H1 & H2) (b & H3 & H4)]. now exists a, b.
  - intros (a & b & H1 & H2 & H3 & H4). split; eauto.
Qed.

Lemma residuals64_spec_witness :
  exists rs,
    residuals64 [Fin 6; Fin 60] (Fin 25) (Fin 0) (Fin 50)
                [Fin 55; Fin 100] [Fin 45; Fin 70] = Ok rs
    /\ length rs = 2%nat.
Proof.
  destruct (residuals64_spec (Fin 25) (Fin 0) (Fin 50) [Fin 6; Fin 60]
              [Fin 55; Fin 100] [Fin 45; Fin 70]) as (rs & Hrs & Hlen & _);
    try reflexivity.
  exists rs. split; [exact Hrs | exact Hlen].
Defined.
